(** * DoorsEngine: light components, name registry and constant buffers

  A shallow embedding of
  - [ECS/Components/Light.h]   (light records and the [Light] component),
  - [ECS/Systems/NameSystem.h] (the entity-name registry interface),
  - [Render/Shaders/ConstantBuffer.h] (the constant-buffer size request),
  followed by the properties stated about them. *)

From Stdlib Require Import ZArith Lia.
From Stdlib Require Import Floats.SpecFloat.
From stdpp Require Import gmap strings list fin_maps.

(* ===================================================================== *)
(** * Part I: the embedding                                               *)
(* ===================================================================== *)

(** ** Single-precision values

  A C++ [float] is an IEEE-754 binary32 datum.  It is represented by
  [spec_float]: signed zeros, signed infinities, NaN, and finite values
  [(-1)^s * m * 2^e] with integral mantissa. *)

Module F32.

Local Open Scope Z_scope.

Definition float := spec_float.

Definition prec : Z := 24.
Definition emax : Z := 128.

(** The data that are binary32 numbers (canonical mantissa and exponent). *)
Definition is_binary32 (f : float) : bool := valid_binary prec emax f.

(** The macro [NAN] of <cmath>. *)
Definition NAN : float := S754_nan.

(** The literal [0.01f]: the binary32 number nearest to 1/100,
    bit pattern 0x3C23D70A. *)
Definition lit_0_01 : float := S754_finite false 10737418 (-30).

(** The literal [0.02f], bit pattern 0x3CA3D70A. *)
Definition lit_0_02 : float := S754_finite false 10737418 (-29).

(** The literals [0.0f], [1.0f] and [-1.0f]. *)
Definition lit_0 : float := S754_zero false.
Definition lit_1 : float := S754_finite false 8388608 (-23).
Definition lit_neg1 : float := S754_finite true 8388608 (-23).

(** The C++ operator [a > b] on floats: false whenever an operand is NaN. *)
Definition gt (a b : float) : bool :=
  match SFcompare a b with
  | Some Gt => true
  | _ => false
  end.

(** The C++ operator [a >= b] on floats. *)
Definition ge (a b : float) : bool :=
  match SFcompare a b with
  | Some Gt | Some Eq => true
  | _ => false
  end.

(** The exact value of a datum exceeds 1/100, written over the integers:
    [m * 2^e > 1/100] is [100 * m * 2^e > 1]. *)
Definition exceeds_hundredth (a : float) : Prop :=
  match a with
  | S754_infinity false => True
  | S754_finite false m e =>
      if Z.leb 0 e then True else 2 ^ (- e) < 100 * Z.pos m
  | _ => False
  end.

End F32.

Abbreviation float := F32.float.

(** ** [namespace ECS] of Light.h *)

Module ECS.

(** [EntityID] comes from Common/ECSTypes.h: an unsigned integer handle. *)
Definition EntityID := N.

Inductive LightType : Type :=
| DIRECTIONAL
| POINT
| SPOT.

Inductive LightProp : Type :=
| AMBIENT
| DIFFUSE
| SPECULAR
| POSITION
| DIRECTION
| RANGE
| ATTENUATION
| SPOT_EXP.

(** [DirectX::XMFLOAT3] and [DirectX::XMFLOAT4] of DirectXMath.h. *)
Record XMFLOAT3 : Type := mkXMFLOAT3 { x3 : float; y3 : float; z3 : float }.
Record XMFLOAT4 : Type :=
  mkXMFLOAT4 { x4 : float; y4 : float; z4 : float; w4 : float }.

(** *** [struct DirLight] *)

Record DirLight : Type := mkDirLight {
  dl_ambient  : XMFLOAT4;
  dl_diffuse  : XMFLOAT4;
  dl_specular : XMFLOAT4
}.

(** [DirLight(const XMFLOAT4& ambient, diffuse, specular)]. *)
Definition DirLight_ctor (ambient diffuse specular : XMFLOAT4) : DirLight :=
  {| dl_ambient := ambient; dl_diffuse := diffuse; dl_specular := specular |}.

(** A colour and an attenuation vector used in examples. *)
Definition white : XMFLOAT4 :=
  mkXMFLOAT4 F32.lit_1 F32.lit_1 F32.lit_1 F32.lit_1.
Definition unit_attenuation : XMFLOAT3 :=
  mkXMFLOAT3 F32.lit_1 F32.lit_1 F32.lit_1.
Definition example_attenuation : XMFLOAT3 :=
  mkXMFLOAT3 F32.lit_0 F32.lit_0_02 F32.lit_neg1.

(** The members of a [DirLight] in declaration order, flattened to floats. *)
Definition XMFLOAT3_floats (v : XMFLOAT3) : list float := [x3 v; y3 v; z3 v].
Definition XMFLOAT4_floats (v : XMFLOAT4) : list float :=
  [x4 v; y4 v; z4 v; w4 v].
Definition DirLight_floats (d : DirLight) : list float :=
  XMFLOAT4_floats (dl_ambient d) ++ XMFLOAT4_floats (dl_diffuse d)
    ++ XMFLOAT4_floats (dl_specular d).

(** *** [struct PointLight] *)

Record PointLight : Type := mkPointLight {
  pl_ambient  : XMFLOAT4;
  pl_diffuse  : XMFLOAT4;
  pl_specular : XMFLOAT4;
  pl_att      : XMFLOAT3;
  pl_range    : float
}.

(** [PointLight()]: every member is brace-initialised with [NAN]. *)
Definition PointLight_default : PointLight :=
  {| pl_ambient  := mkXMFLOAT4 F32.NAN F32.NAN F32.NAN F32.NAN;
     pl_diffuse  := mkXMFLOAT4 F32.NAN F32.NAN F32.NAN F32.NAN;
     pl_specular := mkXMFLOAT4 F32.NAN F32.NAN F32.NAN F32.NAN;
     pl_att      := mkXMFLOAT3 F32.NAN F32.NAN F32.NAN;
     pl_range    := F32.NAN |}.

(** The members [x], [y], [z] of an [XMFLOAT3], selected by name. *)
Inductive axis : Type := axis_x | axis_y | axis_z.

Definition component (i : axis) (v : XMFLOAT3) : float :=
  match i with axis_x => x3 v | axis_y => y3 v | axis_z => z3 v end.

(** What a fresh application of the attenuation clamp would make of a
    vector: the expression [(a > 0.01f) ? a : 0.01f] on each member. *)
Definition clamp_component (a : float) : float :=
  if F32.gt a F32.lit_0_01 then a else F32.lit_0_01.

Definition clamp_attenuation (v : XMFLOAT3) : XMFLOAT3 :=
  {| x3 := clamp_component (x3 v);
     y3 := clamp_component (y3 v);
     z3 := clamp_component (z3 v) |}.

(** [PointLight(ambient, diffuse, specular, range, attenuation)]. *)
Definition PointLight_ctor (ambient diffuse specular : XMFLOAT4)
    (range : float) (attenuation : XMFLOAT3) : PointLight :=
  {| pl_ambient  := ambient;
     pl_diffuse  := diffuse;
     pl_specular := specular;
     pl_att      :=
       {| x3 := if F32.gt (x3 attenuation) F32.lit_0_01
                then x3 attenuation else F32.lit_0_01;
          y3 := if F32.gt (y3 attenuation) F32.lit_0_01
                then y3 attenuation else F32.lit_0_01;
          z3 := if F32.gt (z3 attenuation) F32.lit_0_01
                then z3 attenuation else F32.lit_0_01 |};
     pl_range    := range |}.

(** Objects live at addresses; the copy operations compare addresses. *)
Definition addr := positive.

(** [PointLight& operator=(const PointLight& rhs)], called on the object
    at [this]: nothing happens on self-assignment, otherwise the five
    members are overwritten by those of [rhs].  [None] when an address does
    not hold an object. *)
Definition PointLight_assign (this rhs : addr) (m : gmap addr PointLight)
  : option (gmap addr PointLight) :=
  if decide (this = rhs) then
    match m !! this with Some _ => Some m | None => None end
  else
    match m !! this, m !! rhs with
    | Some _, Some r =>
        Some (<[this :=
                {| pl_ambient  := pl_ambient r;
                   pl_diffuse  := pl_diffuse r;
                   pl_specular := pl_specular r;
                   pl_att      := pl_att r;
                   pl_range    := pl_range r |}]> m)
    | _, _ => None
    end.

(** [PointLight(const PointLight& rhs) { *this = rhs; }]: the new object
    is placed at a free address [this] with default-initialised members,
    whose indeterminate content is [junk], and then assigned from [rhs]. *)
Definition PointLight_copy_ctor (this rhs : addr) (junk : PointLight)
    (m : gmap addr PointLight) : option (gmap addr PointLight) :=
  match m !! this with
  | Some _ => None
  | None => PointLight_assign this rhs (<[this := junk]> m)
  end.

(** [DirLight& operator=(const DirLight& rhs)], called on the object at
    [this]: nothing happens on self-assignment, otherwise the three members
    are overwritten by those of [rhs].  [None] when an address does not hold
    an object. *)
Definition DirLight_assign (this rhs : addr) (m : gmap addr DirLight)
  : option (gmap addr DirLight) :=
  if decide (this = rhs) then
    match m !! this with Some _ => Some m | None => None end
  else
    match m !! this, m !! rhs with
    | Some _, Some r =>
        Some (<[this :=
                {| dl_ambient  := dl_ambient r;
                   dl_diffuse  := dl_diffuse r;
                   dl_specular := dl_specular r |}]> m)
    | _, _ => None
    end.

(** [DirLight(const DirLight& rhs) { *this = rhs; }]: the new object is
    placed at a free address [this] with default-initialised members, whose
    indeterminate content is [junk], and then assigned from [rhs]. *)
Definition DirLight_copy_ctor (this rhs : addr) (junk : DirLight)
    (m : gmap addr DirLight) : option (gmap addr DirLight) :=
  match m !! this with
  | Some _ => None
  | None => DirLight_assign this rhs (<[this := junk]> m)
  end.

(** A memory used in examples: a default-constructed light at address 1
    and a constructed one at address 2. *)
Definition example_mem : gmap addr PointLight :=
  <[2%positive := PointLight_ctor white white white F32.lit_1
                    unit_attenuation]>
    {[1%positive := PointLight_default]}.

Definition PointLight_floats (p : PointLight) : list float :=
  XMFLOAT4_floats (pl_ambient p) ++ XMFLOAT4_floats (pl_diffuse p)
    ++ XMFLOAT4_floats (pl_specular p) ++ XMFLOAT3_floats (pl_att p)
    ++ [pl_range p].

(** *** [struct SpotLight] *)

Record SpotLight : Type := mkSpotLight {
  sl_ambient  : XMFLOAT4;
  sl_diffuse  : XMFLOAT4;
  sl_specular : XMFLOAT4;
  sl_att      : XMFLOAT3;
  sl_range    : float;
  sl_spot     : float
}.

(** [SpotLight()]. *)
Definition SpotLight_default : SpotLight :=
  {| sl_ambient  := mkXMFLOAT4 F32.NAN F32.NAN F32.NAN F32.NAN;
     sl_diffuse  := mkXMFLOAT4 F32.NAN F32.NAN F32.NAN F32.NAN;
     sl_specular := mkXMFLOAT4 F32.NAN F32.NAN F32.NAN F32.NAN;
     sl_att      := mkXMFLOAT3 F32.NAN F32.NAN F32.NAN;
     sl_range    := F32.NAN;
     sl_spot     := F32.NAN |}.

(** [SpotLight(ambient, diffuse, specular, range, spot, attenuation)]. *)
Definition SpotLight_ctor (ambient diffuse specular : XMFLOAT4)
    (range spot : float) (attenuation : XMFLOAT3) : SpotLight :=
  {| sl_ambient  := ambient;
     sl_diffuse  := diffuse;
     sl_specular := specular;
     sl_att      :=
       {| x3 := if F32.gt (x3 attenuation) F32.lit_0_01
                then x3 attenuation else F32.lit_0_01;
          y3 := if F32.gt (y3 attenuation) F32.lit_0_01
                then y3 attenuation else F32.lit_0_01;
          z3 := if F32.gt (z3 attenuation) F32.lit_0_01
                then z3 attenuation else F32.lit_0_01 |};
     sl_range    := range;
     sl_spot     := spot |}.

Definition SpotLight_floats (s : SpotLight) : list float :=
  XMFLOAT4_floats (sl_ambient s) ++ XMFLOAT4_floats (sl_diffuse s)
    ++ XMFLOAT4_floats (sl_specular s) ++ XMFLOAT3_floats (sl_att s)
    ++ [sl_range s; sl_spot s].

(** The members a [SpotLight] shares with a [PointLight]. *)
Definition SpotLight_point_part (s : SpotLight) : PointLight :=
  {| pl_ambient  := sl_ambient s;
     pl_diffuse  := sl_diffuse s;
     pl_specular := sl_specular s;
     pl_att      := sl_att s;
     pl_range    := sl_range s |}.

Definition SpotLight_of_parts (p : PointLight) (spot : float) : SpotLight :=
  {| sl_ambient  := pl_ambient p;
     sl_diffuse  := pl_diffuse p;
     sl_specular := pl_specular p;
     sl_att      := pl_att p;
     sl_range    := pl_range p;
     sl_spot     := spot |}.

(** *** Containers of init params and of light sources *)

Record DirLightsInitParams := { dlip_data : list DirLight }.
Record PointLightsInitParams := { plip_data : list PointLight }.
Record SpotLightsInitParams := { slip_data : list SpotLight }.

Record DirLights := mkDirLights
  { dls_ids : list EntityID; dls_data : list DirLight }.
Record PointLights := mkPointLights
  { pls_ids : list EntityID; pls_data : list PointLight }.
Record SpotLights := mkSpotLights
  { sls_ids : list EntityID; sls_data : list SpotLight }.

(** *** [struct Light], the component *)

Record Light : Type := mkLight {
  ids         : list EntityID;
  types       : list LightType;
  isActive    : list bool;
  dirLights   : DirLights;
  pointLights : PointLights;
  spotLights  : SpotLights
}.

(** A default-constructed component: every [cvector] is empty. *)
Definition Light_default : Light :=
  {| ids := []; types := []; isActive := [];
     dirLights := mkDirLights [] [];
     pointLights := mkPointLights [] [];
     spotLights := mkSpotLights [] [] |}.

End ECS.

(** ** [namespace Render] of ConstantBuffer.h *)

Module Render.

Local Open Scope Z_scope.

(** [UINT] is the 32-bit unsigned integer of the Windows headers. *)
Definition UINT_bits : Z := 32.

(** Arithmetic on a [w]-bit unsigned integer wraps modulo [2^w]. *)
Definition wrap (w x : Z) : Z := x mod 2 ^ w.

(** [HRESULT], [S_OK] and the macro [FAILED] of the Windows headers. *)
Definition HRESULT := Z.
Definition S_OK : HRESULT := 0.
Definition FAILED (hr : HRESULT) : bool := hr <? 0.

(** The enumerators of d3d11.h that [Initialize] uses. *)
Definition D3D11_USAGE_DYNAMIC : Z := 2.
Definition D3D11_BIND_CONSTANT_BUFFER : Z := 4.
Definition D3D11_CPU_ACCESS_WRITE : Z := 65536.

(** [D3D11_BUFFER_DESC] of d3d11.h. *)
Record D3D11_BUFFER_DESC : Type := mkD3D11_BUFFER_DESC {
  ByteWidth           : Z;
  Usage               : Z;
  BindFlags           : Z;
  CPUAccessFlags      : Z;
  MiscFlags           : Z;
  StructureByteStride : Z
}.

(** An [ID3D11Buffer*]; the null pointer is [None]. *)
Definition ID3D11Buffer := positive.

(** [pDevice->CreateBuffer(&desc, 0, &pBuffer_)] as seen from the caller: the
    device maps the description to a result code and the pointer it writes
    to [pBuffer_]. *)
Definition ID3D11Device : Type :=
  D3D11_BUFFER_DESC → HRESULT * option ID3D11Buffer.

(** The description that [ConstantBuffer<T>::Initialize] fills in.
    [ByteWidth] is
    [static_cast<UINT>(sizeof(T) + (16 - (sizeof(T) % 16)))], where
    [size_t_bits] is the width of [size_t], in which the operand is
    computed, and [sizeofT] is [sizeof(T)]. *)
Definition Initialize_desc (size_t_bits sizeofT : Z) : D3D11_BUFFER_DESC :=
  {| ByteWidth :=
       wrap UINT_bits
         (wrap size_t_bits
            (sizeofT + wrap size_t_bits (16 - sizeofT mod 16)));
     Usage               := D3D11_USAGE_DYNAMIC;
     BindFlags           := D3D11_BIND_CONSTANT_BUFFER;
     CPUAccessFlags      := D3D11_CPU_ACCESS_WRITE;
     MiscFlags           := 0;
     StructureByteStride := 0 |}.

(** [HRESULT ConstantBuffer<T>::Initialize(ID3D11Device* pDevice)]: the
    buffer held before is released, the description is handed to the device,
    and a message is logged when the device fails.  The result is the
    [HRESULT], the new [pBuffer_] and the messages given to [LogErr]. *)
Definition Initialize (size_t_bits sizeofT : Z) (pDevice : ID3D11Device)
    (pBuffer_ : option ID3D11Buffer)
  : HRESULT * option ID3D11Buffer * list string :=
  let released : option ID3D11Buffer := None in
  let desc := Initialize_desc size_t_bits sizeofT in
  let hr := (pDevice desc).1 in
  let created := (pDevice desc).2 in
  (hr,
   match created with Some b => Some b | None => released end,
   if FAILED hr then ["can't create a constant buffer"] else []).

(** The [ByteWidth] of the description that [Initialize] hands over. *)
Definition requested_ByteWidth (size_t_bits sizeofT : Z) : Z :=
  ByteWidth (Initialize_desc size_t_bits sizeofT).

(** [D3D11_MAP_WRITE_DISCARD] of d3d11.h. *)
Definition D3D11_MAP_WRITE_DISCARD : Z := 4.

(** What [ApplyChanges] does to the outside world, in order: a message given
    to [LogErr], a call of [Map] on a buffer with a map type, a [CopyMemory]
    of so many bytes of the member [data] to the mapped address, and a call
    of [Unmap] on a buffer. *)
Inductive event (T : Type) : Type :=
| EvLogErr (msg : string)
| EvMap (b : ID3D11Buffer) (MapType : Z)
| EvCopyMemory (data : T) (n : Z)
| EvUnmap (b : ID3D11Buffer).

Arguments EvLogErr {T} msg.
Arguments EvMap {T} b MapType.
Arguments EvCopyMemory {T} data n.
Arguments EvUnmap {T} b.

(** [pContext->Map(pBuffer_, 0, D3D11_MAP_WRITE_DISCARD, 0, &mappedResource)]
    as seen from the caller: the result code the context gives for a
    buffer. *)
Definition ID3D11DeviceContext : Type := ID3D11Buffer → HRESULT.

(** [void ConstantBuffer<T>::ApplyChanges(ID3D11DeviceContext* pContext)]
    on an object whose members are [data] and [pBuffer_]; [sizeofT] is
    [sizeof(T)].  Neither member is written. *)
Definition ApplyChanges {T : Type} (sizeofT : Z)
    (pContext : ID3D11DeviceContext) (data : T)
    (pBuffer_ : option ID3D11Buffer) : list (event T) :=
  match pBuffer_ with
  | None => [EvLogErr "ptr to buffer == nullptr"]
  | Some b =>
      let hr := pContext b in
      if FAILED hr
      then [EvMap b D3D11_MAP_WRITE_DISCARD;
            EvLogErr "failed to Map the constant buffer"]
      else [EvMap b D3D11_MAP_WRITE_DISCARD;
            EvCopyMemory data sizeofT;
            EvUnmap b]
  end.

End Render.

(** ** Results of the store operations *)

(** Modelled from the spec: the three error kinds of its error-handling
    section, returned as explicit result values; no header under the sources
    declares them. *)
Inductive Error : Type :=
| NotFound
| ValidationError
| InvariantViolation.

Inductive result (A : Type) : Type :=
| Ok (a : A)
| Err (e : Error).

Arguments Ok {A} a.
Arguments Err {A} e.

(** ** [class NameSystem] of NameSystem.h

    The header only declares the member functions; their bodies and the
    [Name] component they work on are in files that are not part of the
    sources.  The names and parameter lists below are those of the header. *)

Module NameSystem.

Import ECS.

(** Modelled from the spec: the [Name] component (Components/Name.h is
    missing), a dense array of [ids[k]], [names[k]] pairs plus the two
    derived lookup indices id -> k and name -> k. *)
Record Name : Type := mkName {
  ids       : list EntityID;
  names     : list string;
  idToIdx   : gmap EntityID nat;
  nameToIdx : gmap string nat
}.

(** Modelled from the spec: the registry before any insert; the constructor
    of the missing [Name] component leaves every container empty. *)
Definition Name_default : Name :=
  {| ids := []; names := []; idToIdx := ∅; nameToIdx := ∅ |}.

(** Modelled from the spec: [CheckInputData], whose body is missing.  The
    batch is acceptable when both sequences have the same cardinality, no id
    and no name occurs twice in the batch, and no id and no name of the batch
    is already registered. *)
Definition CheckInputData (r : Name) (ids : list EntityID)
    (names : list string) : bool :=
  bool_decide (length ids = length names)
  && bool_decide (NoDup ids)
  && bool_decide (NoDup names)
  && forallb (λ id, bool_decide (idToIdx r !! id = None)) ids
  && forallb (λ name, bool_decide (nameToIdx r !! name = None)) names.

(** Modelled from the spec: one insert updates the backing array and both
    lookup indices together. *)
Definition push (r : Name) (id : EntityID) (name : string) : Name :=
  {| ids       := NameSystem.ids r ++ [id];
     names     := NameSystem.names r ++ [name];
     idToIdx   := <[id := length (NameSystem.ids r)]> (idToIdx r);
     nameToIdx := <[name := length (NameSystem.names r)]> (nameToIdx r) |}.

(** Modelled from the spec: the mutation of a validated batch, one insert
    per pair, in order. *)
Fixpoint push_all (r : Name) (ids : list EntityID) (names : list string)
  : Name :=
  match ids, names with
  | id :: ids', name :: names' => push_all (push r id name) ids' names'
  | _, _ => r
  end.

(** Modelled from the spec: [AddRecords] (the spec's BulkAdd), whose body is
    missing.  The whole batch is validated before anything is mutated; the
    result is paired with the registry after the call. *)
Definition AddRecords (ids : list EntityID) (names : list string) (r : Name)
  : result unit * Name :=
  if CheckInputData r ids names
  then (Ok tt, push_all r ids names)
  else (Err ValidationError, r).

(** Modelled from the spec: [GetIdxByID], the id -> k index. *)
Definition GetIdxByID (id : EntityID) (r : Name) : option nat :=
  idToIdx r !! id.

(** Modelled from the spec: [GetIdByName], whose body is missing. *)
Definition GetIdByName (name : string) (r : Name) : result EntityID :=
  match nameToIdx r !! name with
  | None => Err NotFound
  | Some k =>
      match NameSystem.ids r !! k with
      | Some id => Ok id
      | None => Err InvariantViolation
      end
  end.

(** Modelled from the spec: the name reference returned by [GetNameById],
    declared [const std::string&] in the header.  It is the slot of the name
    in the backing array and is resolved against the registry that handed it
    out; nothing is copied out of the registry. *)
Definition name_ref := nat.

Definition deref (r : Name) (ref : name_ref) : option string :=
  NameSystem.names r !! ref.

(** Modelled from the spec: [GetNameById], whose body is missing. *)
Definition GetNameById (id : EntityID) (r : Name) : result name_ref :=
  match GetIdxByID id r with
  | None => Err NotFound
  | Some k =>
      if decide (k < length (NameSystem.names r))
      then Ok k
      else Err InvariantViolation
  end.

(** The backing array and the two lookup indices agree. *)
Record consistent (r : Name) : Prop := {
  consistent_length : length (NameSystem.ids r) = length (NameSystem.names r);
  consistent_ids : ∀ id k,
    idToIdx r !! id = Some k ↔ NameSystem.ids r !! k = Some id;
  consistent_names : ∀ name k,
    nameToIdx r !! name = Some k ↔ NameSystem.names r !! k = Some name
}.

(** What makes a batch unacceptable, stated on the backing array. *)
Definition violation (r : Name) (ids : list EntityID) (names : list string)
  : Prop :=
  length ids ≠ length names
  ∨ ¬ NoDup ids
  ∨ ¬ NoDup names
  ∨ (∃ id, id ∈ ids ∧ id ∈ NameSystem.ids r)
  ∨ (∃ name, name ∈ names ∧ name ∈ NameSystem.names r).

(** The registries that calls of [AddRecords] build from the empty one. *)
Inductive reachable : Name → Prop :=
| reachable_default : reachable Name_default
| reachable_AddRecords ids names r :
    reachable r → reachable (AddRecords ids names r).2.

End NameSystem.

(** ** The light store over [struct Light]

    Light.h declares the data only.  The operations on it are in files that
    are not part of the sources; they are given here as the spec words them,
    over the component [ECS.Light] of the header. *)

Module LightVariantStore.

Import ECS.

(** Modelled from the spec: [EntityIndex.IndexOf], the slot of the first
    occurrence of [id] in a dense id array, by linear scan; the index
    utility is missing from the sources. *)
Definition IndexOf (id : EntityID) (l : list EntityID) : option nat :=
  fst <$> list_find (λ x, x = id) l.

(** Modelled from the spec: swap-with-last-and-pop at slot [i]. *)
Definition swap_pop {A : Type} (i : nat) (l : list A) : list A :=
  match last l with
  | None => l
  | Some x => take (length l - 1) (<[i := x]> l)
  end.

(** Modelled from the spec: [TypedLightSubStore.Add], which fails when the
    id is already present in the sub-store. *)
Definition sub_Add {P : Type} (id : EntityID) (p : P)
    (sub : list EntityID * list P) : result (list EntityID * list P) :=
  match IndexOf id sub.1 with
  | Some _ => Err ValidationError
  | None => Ok (sub.1 ++ [id], sub.2 ++ [p])
  end.

(** Modelled from the spec: [TypedLightSubStore.Remove], swap-and-pop. *)
Definition sub_Remove {P : Type} (id : EntityID)
    (sub : list EntityID * list P) : result (list EntityID * list P) :=
  match IndexOf id sub.1 with
  | None => Err NotFound
  | Some j => Ok (swap_pop j sub.1, swap_pop j sub.2)
  end.

Definition dir_sub (s : Light) : list EntityID * list DirLight :=
  (dls_ids (dirLights s), dls_data (dirLights s)).
Definition point_sub (s : Light) : list EntityID * list PointLight :=
  (pls_ids (pointLights s), pls_data (pointLights s)).
Definition spot_sub (s : Light) : list EntityID * list SpotLight :=
  (sls_ids (spotLights s), sls_data (spotLights s)).

Definition set_dir_sub (sub : list EntityID * list DirLight) (s : Light)
  : Light :=
  {| ids := ids s; types := types s; isActive := isActive s;
     dirLights := mkDirLights sub.1 sub.2;
     pointLights := pointLights s; spotLights := spotLights s |}.
Definition set_point_sub (sub : list EntityID * list PointLight) (s : Light)
  : Light :=
  {| ids := ids s; types := types s; isActive := isActive s;
     dirLights := dirLights s;
     pointLights := mkPointLights sub.1 sub.2; spotLights := spotLights s |}.
Definition set_spot_sub (sub : list EntityID * list SpotLight) (s : Light)
  : Light :=
  {| ids := ids s; types := types s; isActive := isActive s;
     dirLights := dirLights s; pointLights := pointLights s;
     spotLights := mkSpotLights sub.1 sub.2 |}.

(** Modelled from the spec: the top-level effect of adding one entity: its
    id, its kind tag, and an active flag that defaults to true. *)
Definition append_entry (id : EntityID) (k : LightType) (s : Light) : Light :=
  {| ids := ids s ++ [id]; types := types s ++ [k];
     isActive := isActive s ++ [true];
     dirLights := dirLights s; pointLights := pointLights s;
     spotLights := spotLights s |}.

(** Modelled from the spec: the validation of [BulkAdd].  The three
    parameter sequences have cardinalities summing to the number of ids,
    there is one kind tag per id, no id occurs twice in the batch and none is
    already present in the store. *)
Definition CheckBatch (s : Light) (new_ids : list EntityID)
    (kinds : list LightType) (dp : DirLightsInitParams)
    (pp : PointLightsInitParams) (sp : SpotLightsInitParams) : bool :=
  bool_decide (length (dlip_data dp) + length (plip_data pp)
               + length (slip_data sp) = length new_ids)
  && bool_decide (length kinds = length new_ids)
  && bool_decide (NoDup new_ids)
  && forallb (λ id, bool_decide (IndexOf id (ids s) = None)) new_ids.

(** Modelled from the spec: the mutation of [BulkAdd].  Each entity, in
    order, is appended to the top-level arrays and its parameters, the next
    record of the sequence of its kind, are forwarded to the matching
    sub-store. *)
Fixpoint forward (new_ids : list EntityID) (kinds : list LightType)
    (dp : list DirLight) (pp : list PointLight) (sp : list SpotLight)
    (s : Light) : result Light :=
  match new_ids, kinds with
  | [], [] => Ok s
  | id :: ids', k :: kinds' =>
      match k with
      | DIRECTIONAL =>
          match dp with
          | [] => Err ValidationError
          | p :: dp' =>
              match sub_Add id p (dir_sub s) with
              | Err e => Err e
              | Ok sub =>
                  forward ids' kinds' dp' pp sp
                    (append_entry id k (set_dir_sub sub s))
              end
          end
      | POINT =>
          match pp with
          | [] => Err ValidationError
          | p :: pp' =>
              match sub_Add id p (point_sub s) with
              | Err e => Err e
              | Ok sub =>
                  forward ids' kinds' dp pp' sp
                    (append_entry id k (set_point_sub sub s))
              end
          end
      | SPOT =>
          match sp with
          | [] => Err ValidationError
          | p :: sp' =>
              match sub_Add id p (spot_sub s) with
              | Err e => Err e
              | Ok sub =>
                  forward ids' kinds' dp pp sp'
                    (append_entry id k (set_spot_sub sub s))
              end
          end
      end
  | _, _ => Err ValidationError
  end.

(** Modelled from the spec: [LightVariantStore.BulkAdd]; a failed call
    leaves the store as it was. *)
Definition BulkAdd (new_ids : list EntityID) (kinds : list LightType)
    (dp : DirLightsInitParams) (pp : PointLightsInitParams)
    (sp : SpotLightsInitParams) (s : Light) : result unit * Light :=
  if CheckBatch s new_ids kinds dp pp sp then
    match forward new_ids kinds (dlip_data dp) (plip_data pp) (slip_data sp) s
    with
    | Ok s' => (Ok tt, s')
    | Err e => (Err e, s)
    end
  else (Err ValidationError, s).

(** Modelled from the spec: [LightVariantStore.SetActive]. *)
Definition SetActive (id : EntityID) (b : bool) (s : Light)
  : result unit * Light :=
  match IndexOf id (ids s) with
  | None => (Err NotFound, s)
  | Some i =>
      (Ok tt,
       {| ids := ids s; types := types s; isActive := <[i := b]> (isActive s);
          dirLights := dirLights s; pointLights := pointLights s;
          spotLights := spotLights s |})
  end.

(** Modelled from the spec: [LightVariantStore.GetKind]. *)
Definition GetKind (id : EntityID) (s : Light) : result LightType :=
  match IndexOf id (ids s) with
  | None => Err NotFound
  | Some i =>
      match types s !! i with
      | Some k => Ok k
      | None => Err InvariantViolation
      end
  end.

(** Modelled from the spec: the top-level effect of removing the entity in
    slot [i], swap-with-last-and-pop on each of the three arrays. *)
Definition pop_entry (i : nat) (s : Light) : Light :=
  {| ids := swap_pop i (ids s); types := swap_pop i (types s);
     isActive := swap_pop i (isActive s);
     dirLights := dirLights s; pointLights := pointLights s;
     spotLights := spotLights s |}.

(** Modelled from the spec: [LightVariantStore.Remove], from the top-level
    arrays and from the owning sub-store, both by swap-and-pop. *)
Definition Remove (id : EntityID) (s : Light) : result unit * Light :=
  match IndexOf id (ids s) with
  | None => (Err NotFound, s)
  | Some i =>
      match types s !! i with
      | None => (Err InvariantViolation, s)
      | Some DIRECTIONAL =>
          match sub_Remove id (dir_sub s) with
          | Ok sub => (Ok tt, pop_entry i (set_dir_sub sub s))
          | Err _ => (Err InvariantViolation, s)
          end
      | Some POINT =>
          match sub_Remove id (point_sub s) with
          | Ok sub => (Ok tt, pop_entry i (set_point_sub sub s))
          | Err _ => (Err InvariantViolation, s)
          end
      | Some SPOT =>
          match sub_Remove id (spot_sub s) with
          | Ok sub => (Ok tt, pop_entry i (set_spot_sub sub s))
          | Err _ => (Err InvariantViolation, s)
          end
      end
  end.

(** The three top-level parallel sequences have one length. *)
Definition aligned (s : Light) : Prop :=
  length (ids s) = length (types s)
  ∧ length (types s) = length (isActive s).

(** The mutating calls a client can issue. *)
Inductive command : Type :=
| CmdBulkAdd (new_ids : list EntityID) (kinds : list LightType)
    (dp : DirLightsInitParams) (pp : PointLightsInitParams)
    (sp : SpotLightsInitParams)
| CmdSetActive (id : EntityID) (b : bool)
| CmdRemove (id : EntityID).

Definition exec (c : command) (s : Light) : Light :=
  match c with
  | CmdBulkAdd new_ids kinds dp pp sp => (BulkAdd new_ids kinds dp pp sp s).2
  | CmdSetActive id b => (SetActive id b s).2
  | CmdRemove id => (Remove id s).2
  end.

(** The stores that a sequence of calls builds from the empty component. *)
Inductive reachable : Light → Prop :=
| reachable_default : reachable Light_default
| reachable_exec c s : reachable s → reachable (exec c s).

(** A batch used in examples: entity 10 as a Point light and entity 11 as a
    Spot light. *)
Definition example_dir_params : DirLightsInitParams := {| dlip_data := [] |}.
Definition example_point_params : PointLightsInitParams :=
  {| plip_data :=
       [PointLight_ctor white white white F32.lit_1 example_attenuation] |}.
Definition example_spot_params : SpotLightsInitParams :=
  {| slip_data :=
       [SpotLight_ctor white white white F32.lit_1 F32.lit_1
          unit_attenuation] |}.
Definition example_store : Light :=
  (BulkAdd [10%N; 11%N] [POINT; SPOT] example_dir_params example_point_params
     example_spot_params Light_default).2.

End LightVariantStore.

(* ===================================================================== *)
(** * Part II: properties                                                 *)
(* ===================================================================== *)

(** ** Comparing a binary32 number with [0.01f] *)

Section Hundredth.

Local Open Scope Z_scope.

Lemma digits2_pos_bounds (m : positive) :
  2 ^ (Z.pos (digits2_pos m) - 1) ≤ Z.pos m < 2 ^ Z.pos (digits2_pos m).
Proof.
  induction m as [p IH | p IH |]; cbn [digits2_pos].
  - rewrite Pos2Z.inj_succ.
    replace (Z.succ (Z.pos (digits2_pos p)) - 1)
      with (Z.succ (Z.pos (digits2_pos p) - 1)) by lia.
    rewrite !Z.pow_succ_r by lia. lia.
  - rewrite Pos2Z.inj_succ.
    replace (Z.succ (Z.pos (digits2_pos p)) - 1)
      with (Z.succ (Z.pos (digits2_pos p) - 1)) by lia.
    rewrite !Z.pow_succ_r by lia. lia.
  - cbn. lia.
Qed.

(** The literals are binary32 numbers. *)
Lemma literals_are_binary32 :
  Forall (λ f, F32.is_binary32 f = true)
    [F32.lit_0_01; F32.lit_0_02; F32.lit_0; F32.lit_1; F32.lit_neg1; F32.NAN].
Proof. repeat constructor. Qed.

(** [0.01f] is the binary32 number nearest to 1/100 and lies below it: with
    [0.01f = m * 2^-30], the distance [1/100 - m * 2^-30], scaled by
    [100 * 2^30], is 24, less than half a unit in the last place; the next
    binary32 number, [(m + 1) * 2^-30], lies above 1/100. *)
Lemma lit_0_01_nearest :
  F32.lit_0_01 = S754_finite false 10737418 (-30)
  ∧ 2 ^ 30 - 100 * 10737418 = 24
  ∧ 2 * 24 < 100
  ∧ 2 ^ 30 < 100 * (10737418 + 1).
Proof. repeat split. Qed.

(** A finite binary32 number has a mantissa below [2^24]; above the
    smallest exponent the mantissa is normal, that is at least [2^23]. *)
Lemma binary32_mantissa (s : bool) (m : positive) (e : Z) :
  F32.is_binary32 (S754_finite s m e) = true →
  Z.pos m < 16777216 ∧ (-149 < e → 8388608 ≤ Z.pos m).
Proof.
  unfold F32.is_binary32, valid_binary, bounded, canonical_mantissa.
  intros H. apply andb_prop in H as [Hc _].
  apply Z.eqb_eq in Hc.
  unfold fexp, emin, F32.prec, F32.emax in Hc.
  pose proof (digits2_pos_bounds m) as [Hlo Hhi].
  set (d := Z.pos (digits2_pos m)) in *.
  assert (Hd : 0 < d) by (unfold d; lia).
  split.
  - assert (d ≤ 24) by lia.
    eapply Z.lt_le_trans; [exact Hhi|].
    change 16777216 with (2 ^ 24).
    apply Z.pow_le_mono_r; lia.
  - intros He. assert (d = 24) as Hd24 by lia.
    rewrite Hd24 in Hlo. exact Hlo.
Qed.

(** The machine comparison with [0.01f] on a positive finite number. *)
Lemma gt_finite_hundredth (m : positive) (e : Z) :
  F32.gt (S754_finite false m e) F32.lit_0_01
  = match e ?= -30 with
    | Lt => false
    | Gt => true
    | Eq => (10737418 <? m)%positive
    end.
Proof.
  unfold F32.gt, F32.lit_0_01, SFcompare, Pos.ltb.
  rewrite Pos.compare_cont_spec. unfold Pos.switch_Eq.
  rewrite (Pos.compare_antisym 10737418 m).
  generalize (10737418 ?= m)%positive; intros c.
  generalize (e ?= -30); intros c'.
  destruct c, c'; reflexivity.
Qed.

(** On binary32 numbers the machine test [a > 0.01f] decides whether the
    exact value of [a] is above 1/100: no binary32 number lies strictly
    between [0.01f] and 1/100. *)
Lemma gt_hundredth_exact (a : float) :
  F32.is_binary32 a = true →
  F32.gt a F32.lit_0_01 = true ↔ F32.exceeds_hundredth a.
Proof.
  intros Hv. destruct a as [s | s | | s m e].
  - split; [discriminate | intros []].
  - destruct s; split; try discriminate; try (intros []); reflexivity.
  - split; [discriminate | intros []].
  - destruct s; [split; [discriminate | intros []]|].
    apply binary32_mantissa in Hv as [Hhi Hlo].
    rewrite gt_finite_hundredth. unfold F32.exceeds_hundredth.
    destruct (Z.compare_spec e (-30)) as [-> | Hlt | Hgt].
    + change (0 <=? -30) with false. change (2 ^ (- -30)) with 1073741824.
      destruct (Pos.ltb_spec 10737418 m) as [Hm | Hm].
      * apply Pos2Z.pos_lt_pos in Hm. split; intros H1.
        -- lia.
        -- reflexivity.
      * apply Pos2Z.pos_le_pos in Hm. split; intros H1.
        -- discriminate H1.
        -- exfalso. lia.
    + destruct (Z.leb_spec 0 e); [lia|].
      split; [discriminate|]. intros Hex. exfalso.
      assert (2 ^ 31 ≤ 2 ^ (- e)) by (apply Z.pow_le_mono_r; lia).
      change (2 ^ 31) with 2147483648 in *. lia.
    + split; [|reflexivity]. intros _.
      destruct (Z.leb_spec 0 e); [exact I|].
      assert (2 ^ (- e) ≤ 2 ^ 29) by (apply Z.pow_le_mono_r; lia).
      specialize (Hlo ltac:(lia)).
      change (2 ^ 29) with 536870912 in *. lia.
Qed.

End Hundredth.

(** ** The light records of Light.h *)

Section LightRecords.

Import ECS.

(** C1. For every Point or Spot light constructed with an attenuation
    vector (a0, a1, a2), each stored attenuation component equals the input
    component when that component is greater than 0.01 and equals 0.01
    otherwise.  This holds for the machine comparison with [0.01f] on every
    float, NaN included; and on binary32 inputs the machine comparison
    agrees with the exact value being above 1/100.  In particular a Point
    light constructed with attenuation (0.0, 0.02, -1.0) stores
    (0.01, 0.02, 0.01). *)
Theorem attenuation_clamped_at_construction :
  (∀ (ambient diffuse specular : XMFLOAT4) (range spot : float)
     (attenuation : XMFLOAT3) (i : axis),
     let input := component i attenuation in
     let p := component i (pl_att (PointLight_ctor ambient diffuse specular
                                     range attenuation)) in
     let s := component i (sl_att (SpotLight_ctor ambient diffuse specular
                                     range spot attenuation)) in
     (F32.gt input F32.lit_0_01 = true → p = input ∧ s = input)
     ∧ (F32.gt input F32.lit_0_01 = false →
        p = F32.lit_0_01 ∧ s = F32.lit_0_01)
     ∧ (F32.is_binary32 input = true →
        (F32.exceeds_hundredth input → p = input ∧ s = input)
        ∧ (¬ F32.exceeds_hundredth input →
           p = F32.lit_0_01 ∧ s = F32.lit_0_01)))
  ∧ (∀ (ambient diffuse specular : XMFLOAT4) (range : float),
       pl_att (PointLight_ctor ambient diffuse specular range
                 (mkXMFLOAT3 F32.lit_0 F32.lit_0_02 F32.lit_neg1))
       = mkXMFLOAT3 F32.lit_0_01 F32.lit_0_02 F32.lit_0_01).
Proof.
  split; [|reflexivity].
  intros ambient diffuse specular range spot attenuation i input p s.
  assert (Hp : p = if F32.gt input F32.lit_0_01 then input else F32.lit_0_01)
    by (subst p input; destruct i; reflexivity).
  assert (Hs : s = if F32.gt input F32.lit_0_01 then input else F32.lit_0_01)
    by (subst s input; destruct i; reflexivity).
  clearbody p s input. split; [|split].
  - intros Hgt. rewrite Hp, Hs, Hgt. split; reflexivity.
  - intros Hgt. rewrite Hp, Hs, Hgt. split; reflexivity.
  - intros Hv. pose proof (gt_hundredth_exact input Hv) as Hex.
    rewrite Hp, Hs.
    destruct (F32.gt input F32.lit_0_01); split; intros H;
      try (split; reflexivity).
    + exfalso. apply H, Hex. reflexivity.
    + apply Hex in H. discriminate.
Qed.

(** The member 0.02 of the attenuation (0.0, 0.02, -1.0) tests greater than
    [0.01f] and is stored as given. *)
Lemma attenuation_clamped_at_construction_witness :
  F32.gt (component axis_y example_attenuation) F32.lit_0_01 = true
  ∧ component axis_y
      (pl_att (PointLight_ctor white white white F32.lit_1
                 example_attenuation)) = F32.lit_0_02
  ∧ component axis_y
      (sl_att (SpotLight_ctor white white white F32.lit_1 F32.lit_1
                 example_attenuation)) = F32.lit_0_02.
Proof.
  split; [reflexivity|].
  apply (proj1 (proj1 attenuation_clamped_at_construction
                  white white white F32.lit_1 F32.lit_1
                  example_attenuation axis_y)).
  reflexivity.
Defined.

(** C4, as the spec states it, fails: a Point light constructed with range
    -1.0 stores a range that is not greater than 0, and a Spot light
    constructed with spot exponent -1.0 stores a spot exponent that is not
    greater than 0. *)
Lemma stored_range_and_spot_not_always_positive :
  F32.gt (pl_range (PointLight_ctor white white white F32.lit_neg1
                      unit_attenuation)) F32.lit_0 = false
  ∧ F32.gt (sl_spot (SpotLight_ctor white white white F32.lit_1 F32.lit_neg1
                       unit_attenuation)) F32.lit_0 = false.
Proof. split; reflexivity. Qed.

(** C4, amended. The constructors store the range, and for a Spot light the
    spot exponent, exactly as given, without validating or clamping them;
    so a Point light constructed with a range greater than 0 has stored
    range greater than 0, and a Spot light constructed with a spot exponent
    greater than 0 has stored spot exponent greater than 0. *)
Theorem range_and_spot_stored_as_given
    (ambient diffuse specular : XMFLOAT4) (range spot : float)
    (attenuation : XMFLOAT3) :
  let p := PointLight_ctor ambient diffuse specular range attenuation in
  let s := SpotLight_ctor ambient diffuse specular range spot attenuation in
  pl_range p = range ∧ sl_range s = range ∧ sl_spot s = spot
  ∧ (F32.gt range F32.lit_0 = true →
     F32.gt (pl_range p) F32.lit_0 = true
     ∧ F32.gt (sl_range s) F32.lit_0 = true)
  ∧ (F32.gt spot F32.lit_0 = true → F32.gt (sl_spot s) F32.lit_0 = true).
Proof. cbn. repeat split; tauto. Qed.

Lemma range_and_spot_stored_as_given_witness :
  F32.gt F32.lit_1 F32.lit_0 = true
  ∧ F32.gt (pl_range (PointLight_ctor white white white F32.lit_1
                        unit_attenuation)) F32.lit_0 = true
  ∧ F32.gt (sl_spot (SpotLight_ctor white white white F32.lit_1 F32.lit_1
                       unit_attenuation)) F32.lit_0 = true.
Proof.
  split; [reflexivity|].
  pose proof (range_and_spot_stored_as_given white white white
                F32.lit_1 F32.lit_1 unit_attenuation)
    as (_ & _ & _ & Hr & Hs).
  split; [apply Hr | apply Hs]; reflexivity.
Defined.

(** Assigning between two live objects always succeeds, and afterwards the
    target holds the five members of the source. *)
Lemma PointLight_assign_spec (m : gmap addr PointLight) (this rhs : addr)
    (t r : PointLight) :
  m !! this = Some t → m !! rhs = Some r →
  ∃ m', PointLight_assign this rhs m = Some m'
        ∧ m' !! this = Some r
        ∧ ∀ a, a ≠ this → m' !! a = m !! a.
Proof.
  intros Ht Hr. unfold PointLight_assign.
  destruct (decide (this = rhs)) as [-> | Hne].
  - rewrite Hr. exists m. repeat split. exact Hr.
  - rewrite Ht, Hr. eexists. split; [reflexivity|]. split.
    + rewrite lookup_insert_eq. destruct r; reflexivity.
    + intros a Ha. rewrite lookup_insert_ne by congruence. reflexivity.
Qed.

(** C5. The attenuation clamp belongs to construction only and is not
    re-applied by copying: copy assignment and copy construction of a
    PointLight reproduce the source's attenuation components verbatim (with
    every other member), for every source, hence also for one whose
    components a fresh clamp would alter; the default-constructed light is
    such a source. *)
Theorem copy_keeps_attenuation_verbatim :
  (∀ (m : gmap addr PointLight) (this rhs : addr) (t r : PointLight),
     m !! this = Some t → m !! rhs = Some r →
     ∃ m' p, PointLight_assign this rhs m = Some m'
             ∧ m' !! this = Some p
             ∧ pl_att p = pl_att r
             ∧ p = r)
  ∧ (∀ (m : gmap addr PointLight) (this rhs : addr) (junk r : PointLight),
       m !! this = None → m !! rhs = Some r →
       ∃ m' p, PointLight_copy_ctor this rhs junk m = Some m'
               ∧ m' !! this = Some p
               ∧ pl_att p = pl_att r
               ∧ p = r)
  ∧ (∀ i, component i (clamp_attenuation (pl_att PointLight_default))
          ≠ component i (pl_att PointLight_default)).
Proof.
  split; [|split].
  - intros m this rhs t r Ht Hr.
    destruct (PointLight_assign_spec m this rhs t r Ht Hr)
      as (m' & Hm' & Hthis & _).
    exists m', r. auto.
  - intros m this rhs junk r Hfree Hr. unfold PointLight_copy_ctor.
    rewrite Hfree.
    assert (Hne : this ≠ rhs) by (intros ->; congruence).
    destruct (PointLight_assign_spec (<[this := junk]> m) this rhs junk r)
      as (m' & Hm' & Hthis & _).
    + apply lookup_insert_eq.
    + rewrite lookup_insert_ne by exact Hne. exact Hr.
    + exists m', r. auto.
  - intros i. destruct i; discriminate.
Qed.

(** A default-constructed light at address 1 is assigned to a constructed
    light at address 2, and copy-constructed at the free address 3: both
    copies hold NaN attenuation, which a clamp would have replaced. *)
Lemma copy_keeps_attenuation_verbatim_witness :
  (∃ m' p, PointLight_assign 2%positive 1%positive example_mem = Some m'
           ∧ m' !! 2%positive = Some p
           ∧ pl_att p = mkXMFLOAT3 F32.NAN F32.NAN F32.NAN
           ∧ p = PointLight_default)
  ∧ (∃ m' p, PointLight_copy_ctor 3%positive 1%positive PointLight_default
               example_mem
             = Some m'
             ∧ m' !! 3%positive = Some p
             ∧ pl_att p = mkXMFLOAT3 F32.NAN F32.NAN F32.NAN
             ∧ p = PointLight_default).
Proof.
  split.
  - apply (proj1 copy_keeps_attenuation_verbatim example_mem 2%positive
             1%positive
             (PointLight_ctor white white white F32.lit_1 unit_attenuation)
             PointLight_default); reflexivity.
  - apply (proj1 (proj2 copy_keeps_attenuation_verbatim) example_mem
             3%positive 1%positive PointLight_default PointLight_default);
      reflexivity.
Defined.

(** C8. A directional light record consists of exactly three 4-component
    colour vectors (ambient, diffuse, specular): it is rebuilt from these
    three members, any three vectors make one, and it flattens to twelve
    floats, so there is no position or range member.  A spot light record
    consists of exactly the point-light members (ambient, diffuse, specular,
    range, attenuation) plus one spot exponent: it is rebuilt from its
    point-light part and its exponent, any such pair makes one, and it
    flattens to the sixteen floats of the point light followed by the
    exponent. *)
Theorem light_record_members :
  (∀ d : DirLight,
     DirLight_ctor (dl_ambient d) (dl_diffuse d) (dl_specular d) = d)
  ∧ (∀ a d s : XMFLOAT4,
       dl_ambient (DirLight_ctor a d s) = a
       ∧ dl_diffuse (DirLight_ctor a d s) = d
       ∧ dl_specular (DirLight_ctor a d s) = s)
  ∧ (∀ v : XMFLOAT4, length (XMFLOAT4_floats v) = 4)
  ∧ (∀ d : DirLight, length (DirLight_floats d) = 12)
  ∧ (∀ s : SpotLight,
       SpotLight_of_parts (SpotLight_point_part s) (sl_spot s) = s)
  ∧ (∀ (p : PointLight) (e : float),
       SpotLight_point_part (SpotLight_of_parts p e) = p
       ∧ sl_spot (SpotLight_of_parts p e) = e)
  ∧ (∀ s : SpotLight,
       pl_ambient (SpotLight_point_part s) = sl_ambient s
       ∧ pl_diffuse (SpotLight_point_part s) = sl_diffuse s
       ∧ pl_specular (SpotLight_point_part s) = sl_specular s
       ∧ pl_range (SpotLight_point_part s) = sl_range s
       ∧ pl_att (SpotLight_point_part s) = sl_att s)
  ∧ (∀ s : SpotLight,
       SpotLight_floats s
       = PointLight_floats (SpotLight_point_part s) ++ [sl_spot s])
  ∧ (∀ p : PointLight, length (PointLight_floats p) = 16)
  ∧ (∀ s : SpotLight, length (SpotLight_floats s) = 17).
Proof.
  repeat split.
  - destruct d; reflexivity.
  - destruct s; reflexivity.
  - destruct p; reflexivity.
Qed.

(** C9. A default-constructed PointLight or SpotLight has every parameter
    member (ambient, diffuse, specular, attenuation, range, and for the
    SpotLight the spot exponent) equal to NaN.  The default constructor does
    not apply the attenuation clamp, so no attenuation component is at or
    above the floor 0.01 and a clamp would change each of them, and neither
    the range nor the spot exponent is greater than 0. *)
Theorem default_lights_are_NaN :
  PointLight_floats PointLight_default = replicate 16 F32.NAN
  ∧ SpotLight_floats SpotLight_default = replicate 17 F32.NAN
  ∧ (∀ i,
       F32.ge (component i (pl_att PointLight_default)) F32.lit_0_01 = false
       ∧ F32.ge (component i (sl_att SpotLight_default)) F32.lit_0_01 = false)
  ∧ (∀ i,
       clamp_component (component i (pl_att PointLight_default))
         ≠ component i (pl_att PointLight_default)
       ∧ clamp_component (component i (sl_att SpotLight_default))
         ≠ component i (sl_att SpotLight_default))
  ∧ F32.gt (pl_range PointLight_default) F32.lit_0 = false
  ∧ F32.gt (sl_range SpotLight_default) F32.lit_0 = false
  ∧ F32.gt (sl_spot SpotLight_default) F32.lit_0 = false.
Proof.
  repeat split; try (destruct i; reflexivity); destruct i; discriminate.
Qed.

End LightRecords.

(** ** The constant-buffer size request of ConstantBuffer.h *)

Section ConstantBufferSize.

Local Open Scope Z_scope.

(** [size_t] is at least as wide as [UINT]. *)
Variable size_t_bits : Z.
Hypothesis size_t_wide : Render.UINT_bits ≤ size_t_bits.

(** The device is asked exactly for [Initialize_desc], and its result code
    is the one [Initialize] returns. *)
Lemma Initialize_hands_desc (sizeofT : Z) (pDevice : Render.ID3D11Device)
    (pBuffer_ : option Render.ID3D11Buffer) :
  (Render.Initialize size_t_bits sizeofT pDevice pBuffer_).1.1
  = (pDevice (Render.Initialize_desc size_t_bits sizeofT)).1.
Proof. reflexivity. Qed.

(** Narrowing to [UINT] after computing in [size_t] is reduction modulo
    [2^32]. *)
Lemma ByteWidth_mod (sizeofT : Z) :
  Render.requested_ByteWidth size_t_bits sizeofT
  = (sizeofT + (16 - sizeofT mod 16)) mod 4294967296.
Proof.
  unfold Render.requested_ByteWidth, Render.Initialize_desc, Render.ByteWidth.
  unfold Render.wrap, Render.UINT_bits in *.
  assert (H16 : 0 ≤ sizeofT mod 16 < 16) by (apply Z.mod_pos_bound; lia).
  assert (Hpow : 2 ^ size_t_bits = 2 ^ (size_t_bits - 32) * 2 ^ 32).
  { rewrite <- Z.pow_add_r by lia. f_equal. lia. }
  assert (Hpos : 0 < 2 ^ (size_t_bits - 32)) by (apply Z.pow_pos_nonneg; lia).
  change (2 ^ 32) with 4294967296 in *.
  rewrite (Z.mod_small (16 - sizeofT mod 16)) by lia.
  apply Z.mod_mod_divide.
  exists (2 ^ (size_t_bits - 32)). exact Hpow.
Qed.

Lemma padded_size (sizeofT : Z) :
  sizeofT + (16 - sizeofT mod 16) = 16 * (sizeofT / 16 + 1).
Proof. pose proof (Z.div_mod sizeofT 16). lia. Qed.

(** The requested width is a multiple of 16 whatever the size is. *)
Lemma ByteWidth_multiple_of_16 (sizeofT : Z) :
  Render.requested_ByteWidth size_t_bits sizeofT mod 16 = 0.
Proof.
  rewrite ByteWidth_mod, padded_size.
  change 4294967296 with (16 * 268435456).
  rewrite Z.mul_mod_distr_l by lia.
  rewrite Z.mul_comm. apply Z.mod_mul. lia.
Qed.

(** C10, amended. For every payload type T with sizeof(T) < 2^32 - 16,
    [Initialize] requests a ByteWidth equal to
    sizeof(T) + (16 - sizeof(T) % 16), which is a multiple of 16 and
    strictly greater than sizeof(T); when sizeof(T) is already a multiple of
    16, 16 extra bytes are requested. *)
Theorem ByteWidth_padding (sizeofT : Z) :
  0 < sizeofT < 4294967296 - 16 →
  Render.requested_ByteWidth size_t_bits sizeofT
  = sizeofT + (16 - sizeofT mod 16)
  ∧ Render.requested_ByteWidth size_t_bits sizeofT mod 16 = 0
  ∧ sizeofT < Render.requested_ByteWidth size_t_bits sizeofT
  ∧ (sizeofT mod 16 = 0 →
     Render.requested_ByteWidth size_t_bits sizeofT = sizeofT + 16).
Proof.
  intros Hsz.
  assert (H16 : 0 ≤ sizeofT mod 16 < 16) by (apply Z.mod_pos_bound; lia).
  assert (Heq : Render.requested_ByteWidth size_t_bits sizeofT
                = sizeofT + (16 - sizeofT mod 16)).
  { rewrite ByteWidth_mod. apply Z.mod_small.
    pose proof (padded_size sizeofT) as Hp.
    assert (sizeofT / 16 < 268435455)
      by (apply Z.div_lt_upper_bound; lia).
    lia. }
  split; [exact Heq|]. split; [apply ByteWidth_multiple_of_16|].
  split; [lia|]. intros H0. rewrite Heq, H0. lia.
Qed.

End ConstantBufferSize.

(** C10, as the spec states it, fails: with a 64-bit [size_t], a payload
    type of 4294967280 bytes (a multiple of 16) gets a requested ByteWidth
    of 0, which is neither sizeof(T) + 16 nor greater than sizeof(T). *)
Lemma ByteWidth_wraps_for_huge_payload :
  Render.requested_ByteWidth 64 4294967280 = 0%Z
  ∧ Render.requested_ByteWidth 64 4294967280
    ≠ (4294967280 + (16 - 4294967280 mod 16))%Z
  ∧ ¬ (4294967280 < Render.requested_ByteWidth 64 4294967280)%Z.
Proof. vm_compute. repeat split; [discriminate | discriminate]. Qed.

(** A 64-byte payload (a 4x4 float matrix) with a 64-bit [size_t]: 80 bytes
    are requested. *)
Lemma ByteWidth_padding_witness :
  (0 < 64 < 4294967296 - 16)%Z
  ∧ Render.requested_ByteWidth 64 64 = (64 + (16 - 64 mod 16))%Z
  ∧ (Render.requested_ByteWidth 64 64 mod 16 = 0)%Z
  ∧ (64 < Render.requested_ByteWidth 64 64)%Z
  ∧ ((64 mod 16 = 0)%Z → Render.requested_ByteWidth 64 64 = (64 + 16)%Z).
Proof.
  split; [split; reflexivity|].
  apply (ByteWidth_padding 64 ltac:(discriminate) 64).
  split; reflexivity.
Defined.

(** ** The name registry *)

Section NameRegistry.

Import ECS NameSystem.

(** Appending to a dense array and recording the new slot keeps a lookup
    index in step with the array. *)
Lemma index_push {K : Type} `{Countable K} (l : list K) (m : gmap K nat)
    (x : K) :
  (∀ y k, m !! y = Some k ↔ l !! k = Some y) →
  m !! x = None →
  ∀ y k, <[x := length l]> m !! y = Some k ↔ (l ++ [x]) !! k = Some y.
Proof.
  intros Hm Hx y k. rewrite lookup_insert, lookup_app_Some.
  destruct (decide (x = y)) as [-> | Hne].
  - split.
    + intros [= <-]. right. split; [lia|].
      rewrite Nat.sub_diag. reflexivity.
    + intros [Hk | [Hle Hk]].
      * apply Hm in Hk. congruence.
      * destruct (k - length l) as [|n] eqn:E; cbn in Hk; [|discriminate Hk].
        f_equal. lia.
  - rewrite Hm. split; [tauto|].
    intros [Hk | [Hle Hk]]; [exact Hk|].
    destruct (k - length l) as [|n]; cbn in Hk; [congruence | discriminate].
Qed.

Lemma consistent_default : consistent Name_default.
Proof.
  split; [reflexivity | |]; intros x k; cbn;
    rewrite lookup_empty, lookup_nil; split; discriminate.
Qed.

Lemma consistent_push (r : Name) (id : EntityID) (name : string) :
  consistent r →
  idToIdx r !! id = None → nameToIdx r !! name = None →
  consistent (push r id name).
Proof.
  intros [Hlen Hids Hnames] Hid Hname. split; cbn.
  - rewrite !length_app, Hlen. reflexivity.
  - apply index_push; assumption.
  - apply index_push; assumption.
Qed.

(** What a passed check establishes. *)
Lemma CheckInputData_true (r : Name) (new_ids : list EntityID)
    (new_names : list string) :
  CheckInputData r new_ids new_names = true ↔
  length new_ids = length new_names
  ∧ NoDup new_ids ∧ NoDup new_names
  ∧ Forall (λ id, idToIdx r !! id = None) new_ids
  ∧ Forall (λ name, nameToIdx r !! name = None) new_names.
Proof.
  unfold CheckInputData.
  rewrite !andb_true_iff, !bool_decide_eq_true, !forallb_forall.
  rewrite !Forall_forall.
  setoid_rewrite bool_decide_eq_true.
  setoid_rewrite <- list_elem_of_In. tauto.
Qed.

Lemma consistent_push_all (new_ids : list EntityID) :
  ∀ (new_names : list string) (r : Name),
    consistent r →
    NoDup new_ids → NoDup new_names →
    Forall (λ id, idToIdx r !! id = None) new_ids →
    Forall (λ name, nameToIdx r !! name = None) new_names →
    consistent (push_all r new_ids new_names).
Proof.
  induction new_ids as [|id new_ids IH]; intros [|name new_names] r Hr
    Hnd_ids Hnd_names Hfree_ids Hfree_names; cbn; try exact Hr.
  apply NoDup_cons in Hnd_ids as [Hid Hnd_ids].
  apply NoDup_cons in Hnd_names as [Hname Hnd_names].
  apply Forall_cons in Hfree_ids as [Hfid Hfree_ids].
  apply Forall_cons in Hfree_names as [Hfname Hfree_names].
  apply IH; try assumption.
  - apply consistent_push; assumption.
  - rewrite Forall_forall in *. intros x Hx. cbn.
    rewrite lookup_insert_ne by (intros ->; contradiction).
    apply Hfree_ids, Hx.
  - rewrite Forall_forall in *. intros x Hx. cbn.
    rewrite lookup_insert_ne by (intros ->; contradiction).
    apply Hfree_names, Hx.
Qed.

Lemma consistent_AddRecords (new_ids : list EntityID)
    (new_names : list string) (r : Name) :
  consistent r → consistent (AddRecords new_ids new_names r).2.
Proof.
  intros Hr. unfold AddRecords.
  destruct (CheckInputData r new_ids new_names) eqn:Hc; [|exact Hr].
  apply CheckInputData_true in Hc as (_ & ? & ? & ? & ?).
  apply consistent_push_all; assumption.
Qed.

Lemma reachable_consistent (r : Name) : reachable r → consistent r.
Proof.
  induction 1 as [|new_ids new_names r _ IH].
  - apply consistent_default.
  - apply consistent_AddRecords, IH.
Qed.

(** In a consistent registry the indices know exactly the array entries. *)
Lemma registered_id_indexed (r : Name) (id : EntityID) :
  consistent r → id ∈ NameSystem.ids r ↔ is_Some (idToIdx r !! id).
Proof.
  intros Hr. rewrite list_elem_of_lookup. unfold is_Some.
  split; intros [k Hk]; exists k; apply (consistent_ids r Hr); exact Hk.
Qed.

Lemma registered_name_indexed (r : Name) (name : string) :
  consistent r → name ∈ NameSystem.names r ↔ is_Some (nameToIdx r !! name).
Proof.
  intros Hr. rewrite list_elem_of_lookup. unfold is_Some.
  split; intros [k Hk]; exists k; apply (consistent_names r Hr); exact Hk.
Qed.

Lemma violation_fails_check (r : Name) (new_ids : list EntityID)
    (new_names : list string) :
  consistent r → violation r new_ids new_names →
  CheckInputData r new_ids new_names = false.
Proof.
  intros Hr Hv. apply not_true_is_false. intros Hc.
  apply CheckInputData_true in Hc as (Hlen & Hnd1 & Hnd2 & Hf1 & Hf2).
  rewrite Forall_forall in Hf1. rewrite Forall_forall in Hf2.
  destruct Hv as [Hv | [Hv | [Hv | [(id & Hin & Hreg) | (n & Hin & Hreg)]]]];
    try contradiction.
  - apply (registered_id_indexed r id Hr) in Hreg as [k Hk].
    rewrite (Hf1 id Hin) in Hk. discriminate.
  - apply (registered_name_indexed r n Hr) in Hreg as [k Hk].
    rewrite (Hf2 n Hin) in Hk. discriminate.
Qed.

Lemma check_fails_violation (r : Name) (new_ids : list EntityID)
    (new_names : list string) :
  consistent r → CheckInputData r new_ids new_names = false →
  violation r new_ids new_names.
Proof.
  intros Hr Hc. unfold violation.
  destruct (decide (length new_ids = length new_names)) as [Hlen|]; [|tauto].
  destruct (decide (NoDup new_ids)) as [Hnd1|]; [|tauto].
  destruct (decide (NoDup new_names)) as [Hnd2|]; [|tauto].
  destruct (decide (Forall (λ id, idToIdx r !! id = None) new_ids))
    as [Hf1 | Hf1].
  - destruct (decide (Forall (λ name, nameToIdx r !! name = None) new_names))
      as [Hf2 | Hf2].
    + exfalso. apply not_true_iff_false in Hc. apply Hc.
      apply CheckInputData_true. tauto.
    + apply not_Forall_Exists in Hf2; [|apply _].
      apply Exists_exists in Hf2 as (name & Hin & Hsome).
      do 4 right. exists name. split; [exact Hin|].
      apply registered_name_indexed; [exact Hr|].
      cbn in Hsome. destruct (nameToIdx r !! name); [eauto | congruence].
  - apply not_Forall_Exists in Hf1; [|apply _].
    apply Exists_exists in Hf1 as (id & Hin & Hsome).
    do 3 right. left. exists id. split; [exact Hin|].
    apply registered_id_indexed; [exact Hr|].
    cbn in Hsome. destruct (idToIdx r !! id); [eauto | congruence].
Qed.

(** A batch is appended to the backing arrays in order. *)
Lemma push_all_arrays (new_ids : list EntityID) :
  ∀ (new_names : list string) (r : Name),
    length new_ids = length new_names →
    NameSystem.ids (push_all r new_ids new_names)
    = NameSystem.ids r ++ new_ids
    ∧ NameSystem.names (push_all r new_ids new_names)
      = NameSystem.names r ++ new_names.
Proof.
  induction new_ids as [|id new_ids IH]; intros [|name new_names] r Hlen;
    cbn in *; try discriminate.
  - rewrite !app_nil_r. split; reflexivity.
  - destruct (IH new_names (push r id name)) as [-> ->]; [lia|].
    cbn. rewrite <- !app_assoc. split; reflexivity.
Qed.

(** Both lookups succeed on what the registry holds, and they are inverse
    to each other. *)
Lemma lookups_of_registered (r : Name) (k : nat) (id : EntityID)
    (name : string) :
  consistent r →
  NameSystem.ids r !! k = Some id → NameSystem.names r !! k = Some name →
  GetIdByName name r = Ok id
  ∧ GetNameById id r = Ok k
  ∧ deref r k = Some name.
Proof.
  intros Hr Hid Hname. unfold GetIdByName, GetNameById, GetIdxByID, deref.
  rewrite (proj2 (consistent_names r Hr name k) Hname), Hid.
  rewrite (proj2 (consistent_ids r Hr id k) Hid).
  apply lookup_lt_Some in Hname as Hlt.
  destruct (decide (k < length (NameSystem.names r))); [|contradiction].
  repeat split. exact Hname.
Qed.

(** An acceptable batch is registered as a whole: afterwards every pair of
    the batch is found by both lookups. *)
Lemma AddRecords_accepts (r : Name) (new_ids : list EntityID)
    (new_names : list string) :
  consistent r → ¬ violation r new_ids new_names →
  ∃ r', AddRecords new_ids new_names r = (Ok tt, r')
        ∧ consistent r'
        ∧ ∀ j id name,
            new_ids !! j = Some id → new_names !! j = Some name →
            GetIdByName name r' = Ok id
            ∧ ∃ ref, GetNameById id r' = Ok ref ∧ deref r' ref = Some name.
Proof.
  intros Hr Hnv.
  destruct (CheckInputData r new_ids new_names) eqn:Hc;
    [|exfalso; apply Hnv, check_fails_violation; assumption].
  pose proof (consistent_AddRecords new_ids new_names r Hr) as Hr'.
  unfold AddRecords in *. rewrite Hc in *. cbn in Hr'.
  eexists. split; [reflexivity|]. split; [exact Hr'|].
  intros j id name Hj1 Hj2.
  apply CheckInputData_true in Hc as (Hlen & _).
  destruct (push_all_arrays new_ids new_names r Hlen) as [Hids Hnames].
  destruct (lookups_of_registered (push_all r new_ids new_names)
              (length (NameSystem.ids r) + j) id name Hr') as (H1 & H2 & H3).
  - rewrite Hids, lookup_app_r by lia.
    replace (length (NameSystem.ids r) + j - length (NameSystem.ids r))
      with j by lia. exact Hj1.
  - rewrite Hnames, (consistent_length r Hr), lookup_app_r by lia.
    replace (length (NameSystem.names r) + j - length (NameSystem.names r))
      with j by lia. exact Hj2.
  - split; [exact H1|]. eauto.
Qed.

(** C2. [AddRecords] (BulkAdd) validates the whole batch before mutating
    anything: when the two sequences differ in cardinality, or an id or a
    name occurs twice in the batch, or an id or a name of the batch is
    already registered, the call fails with ValidationError and the registry
    is unchanged; no failing call changes the registry.  In particular
    BulkAdd([1,2], ["a","a"]) fails, and when "a" was never registered
    GetIdByName("a") reports absence before and after the failed call. *)
Theorem AddRecords_rejects_whole_batch (r : Name) :
  reachable r →
  (∀ new_ids new_names,
     violation r new_ids new_names →
     AddRecords new_ids new_names r = (Err ValidationError, r))
  ∧ (∀ new_ids new_names e r',
       AddRecords new_ids new_names r = (Err e, r') →
       e = ValidationError ∧ r' = r ∧ violation r new_ids new_names)
  ∧ AddRecords [1%N; 2%N] ["a"; "a"] r = (Err ValidationError, r)
  ∧ ("a" ∉ NameSystem.names r →
     GetIdByName "a" r = Err NotFound
     ∧ GetIdByName "a" (AddRecords [1%N; 2%N] ["a"; "a"] r).2 = Err NotFound).
Proof.
  intros Hreach. apply reachable_consistent in Hreach as Hr.
  assert (Hrej : ∀ new_ids new_names,
             violation r new_ids new_names →
             AddRecords new_ids new_names r = (Err ValidationError, r)).
  { intros new_ids new_names Hv. unfold AddRecords.
    rewrite (violation_fails_check r new_ids new_names Hr Hv). reflexivity. }
  assert (Haa : AddRecords [1%N; 2%N] ["a"; "a"] r = (Err ValidationError, r)).
  { apply Hrej. right. right. left. intros Hnd.
    apply NoDup_cons in Hnd as [Hnin _]. apply Hnin. left. }
  split; [exact Hrej|]. split; [|split; [exact Haa|]].
  - intros new_ids new_names e r' Hadd. unfold AddRecords in Hadd.
    destruct (CheckInputData r new_ids new_names) eqn:Hc; [discriminate|].
    injection Hadd as <- <-. repeat split.
    apply check_fails_violation; assumption.
  - intros Hfree. rewrite Haa. cbn.
    assert (GetIdByName "a" r = Err NotFound) as ->; [|split; reflexivity].
    unfold GetIdByName.
    destruct (nameToIdx r !! "a") as [k|] eqn:Hk; [|reflexivity].
    exfalso. apply Hfree.
    apply registered_name_indexed; [exact Hr | eauto].
Qed.

(** A registry that holds 3 under the name "x" rejects the batch
    ([1,2], ["a","a"]), whose names repeat, and the batch ([3], ["y"]),
    whose id is already registered; it is left as it was. *)
Lemma AddRecords_rejects_whole_batch_witness :
  reachable (AddRecords [3%N] ["x"] Name_default).2
  ∧ violation (AddRecords [3%N] ["x"] Name_default).2 [3%N] ["y"]
  ∧ AddRecords [3%N] ["y"] (AddRecords [3%N] ["x"] Name_default).2
    = (Err ValidationError, (AddRecords [3%N] ["x"] Name_default).2)
  ∧ AddRecords [1%N; 2%N] ["a"; "a"] (AddRecords [3%N] ["x"] Name_default).2
    = (Err ValidationError, (AddRecords [3%N] ["x"] Name_default).2).
Proof.
  assert (Hreach : reachable (AddRecords [3%N] ["x"] Name_default).2)
    by apply reachable_AddRecords, reachable_default.
  assert (Hv : violation (AddRecords [3%N] ["x"] Name_default).2
                 [3%N] ["y"]).
  { do 3 right. left. exists 3%N. split.
    - apply (bool_decide_unpack _). vm_compute. exact I.
    - apply (bool_decide_unpack _). vm_compute. exact I. }
  split; [exact Hreach|]. split; [exact Hv|].
  pose proof (AddRecords_rejects_whole_batch _ Hreach) as (Hrej & _ & Haa & _).
  split; [apply Hrej, Hv | exact Haa].
Defined.

(** C6. Lookups signal absence as an ordinary result value: for every name
    that is not registered, GetIdByName fails with NotFound, and for every id
    that is not registered, GetNameById fails with NotFound.  On success
    GetNameById returns a reference into the registry: it resolves, in the
    registry that returned it, to the name stored in the slot of that id.
    Lookups of registered ids and names succeed. *)
Theorem lookups_report_absence (r : Name) :
  reachable r →
  (∀ name, name ∉ NameSystem.names r → GetIdByName name r = Err NotFound)
  ∧ (∀ id, id ∉ NameSystem.ids r → GetNameById id r = Err NotFound)
  ∧ (∀ id ref,
       GetNameById id r = Ok ref →
       NameSystem.ids r !! ref = Some id
       ∧ ∃ name, deref r ref = Some name ∧ GetIdByName name r = Ok id)
  ∧ (∀ id, id ∈ NameSystem.ids r → ∃ ref, GetNameById id r = Ok ref)
  ∧ (∀ name, name ∈ NameSystem.names r → ∃ id, GetIdByName name r = Ok id).
Proof.
  intros Hreach. apply reachable_consistent in Hreach as Hr.
  split; [|split; [|split; [|split]]].
  - intros name Hfree. unfold GetIdByName.
    destruct (nameToIdx r !! name) as [k|] eqn:Hk; [|reflexivity].
    exfalso. apply Hfree. apply registered_name_indexed; [exact Hr | eauto].
  - intros id Hfree. unfold GetNameById, GetIdxByID.
    destruct (idToIdx r !! id) as [k|] eqn:Hk; [|reflexivity].
    exfalso. apply Hfree. apply registered_id_indexed; [exact Hr | eauto].
  - intros id ref Hget. unfold GetNameById, GetIdxByID in Hget.
    destruct (idToIdx r !! id) as [k|] eqn:Hk; [|discriminate].
    destruct (decide (k < length (NameSystem.names r))) as [Hlt|];
      [|discriminate].
    injection Hget as <-.
    apply (consistent_ids r Hr) in Hk.
    destruct (lookup_lt_is_Some_2 _ _ Hlt) as [name Hname].
    split; [exact Hk|]. exists name. split; [exact Hname|].
    apply (lookups_of_registered r k id name Hr Hk Hname).
  - intros id Hin. apply list_elem_of_lookup in Hin as [k Hk].
    assert (Hlt : k < length (NameSystem.names r)).
    { rewrite <- (consistent_length r Hr). eapply lookup_lt_Some, Hk. }
    destruct (lookup_lt_is_Some_2 _ _ Hlt) as [name Hname].
    exists k. apply (lookups_of_registered r k id name Hr Hk Hname).
  - intros name Hin. apply list_elem_of_lookup in Hin as [k Hk].
    assert (Hlt : k < length (NameSystem.ids r)).
    { rewrite (consistent_length r Hr). eapply lookup_lt_Some, Hk. }
    destruct (lookup_lt_is_Some_2 _ _ Hlt) as [id Hid].
    exists id. apply (lookups_of_registered r k id name Hr Hid Hk).
Qed.

(** A registry holding 1 as "a" and 2 as "b": the name "c" and the id 9 are
    absent. *)
Lemma lookups_report_absence_witness :
  reachable (AddRecords [1%N; 2%N] ["a"; "b"] Name_default).2
  ∧ GetIdByName "c" (AddRecords [1%N; 2%N] ["a"; "b"] Name_default).2
    = Err NotFound
  ∧ GetNameById 9%N (AddRecords [1%N; 2%N] ["a"; "b"] Name_default).2
    = Err NotFound.
Proof.
  assert (Hreach : reachable
                     (AddRecords [1%N; 2%N] ["a"; "b"] Name_default).2)
    by apply reachable_AddRecords, reachable_default.
  split; [exact Hreach|].
  destruct (lookups_report_absence _ Hreach) as (Hname & Hid & _).
  split.
  - apply Hname. apply (bool_decide_unpack _). vm_compute. exact I.
  - apply Hid. apply (bool_decide_unpack _). vm_compute. exact I.
Defined.

End NameRegistry.

(** ** The light store *)

Section LightStore.

Import ECS LightVariantStore.

Lemma IndexOf_Some (id : EntityID) (l : list EntityID) (i : nat) :
  IndexOf id l = Some i ↔
  l !! i = Some id ∧ ∀ j, j < i → l !! j ≠ Some id.
Proof.
  unfold IndexOf. split.
  - intros H. destruct (list_find (λ x, x = id) l) as [[i' x]|] eqn:E;
      [|discriminate].
    cbn in H. injection H as ->.
    apply list_find_Some in E as (Hi & -> & Hbefore).
    split; [exact Hi|]. intros j Hj Hl. exact (Hbefore j id Hl Hj eq_refl).
  - intros [Hi Hbefore].
    assert (E : list_find (λ x, x = id) l = Some (i, id)).
    { apply list_find_Some. split; [exact Hi|]. split; [reflexivity|].
      intros j y Hl Hj ->. exact (Hbefore j Hj Hl). }
    rewrite E. reflexivity.
Qed.

Lemma IndexOf_None (id : EntityID) (l : list EntityID) :
  IndexOf id l = None ↔ id ∉ l.
Proof.
  unfold IndexOf. rewrite fmap_None, list_find_None, Forall_forall.
  split.
  - intros H Hin. exact (H id Hin eq_refl).
  - intros H x Hin ->. exact (H Hin).
Qed.

Lemma IndexOf_lt (id : EntityID) (l : list EntityID) (i : nat) :
  IndexOf id l = Some i → i < length l.
Proof. intros H. apply IndexOf_Some in H as [H _]. eapply lookup_lt_Some, H. Qed.

(** The slot of a freshly appended id. *)
Lemma IndexOf_app_fresh (id : EntityID) (l l' : list EntityID) (j : nat) :
  id ∉ l → NoDup l' → l' !! j = Some id →
  IndexOf id (l ++ l') = Some (length l + j).
Proof.
  intros Hfresh Hnd Hj. apply IndexOf_Some. split.
  - rewrite lookup_app_r by lia.
    replace (length l + j - length l) with j by lia. exact Hj.
  - intros i Hi Hl. apply lookup_app_Some in Hl as [Hl | [Hle Hl]].
    + apply Hfresh. eapply list_elem_of_lookup_2, Hl.
    + assert (i - length l = j) by (eapply NoDup_lookup; eauto). lia.
Qed.

Lemma length_swap_pop {A : Type} (i : nat) (l : list A) :
  length (swap_pop i l) = length l - 1.
Proof.
  unfold swap_pop. destruct (last l) eqn:E.
  - rewrite length_take, length_insert. lia.
  - apply last_None in E. subst l. reflexivity.
Qed.

(** What a successful forwarding pass does to the top-level arrays. *)
Lemma forward_arrays (new_ids : list EntityID) :
  ∀ (kinds : list LightType) (dp : list DirLight) (pp : list PointLight)
    (sp : list SpotLight) (s s' : Light),
    forward new_ids kinds dp pp sp s = Ok s' →
    length kinds = length new_ids
    ∧ ids s' = ids s ++ new_ids
    ∧ types s' = types s ++ kinds
    ∧ isActive s' = isActive s ++ replicate (length new_ids) true.
Proof.
  induction new_ids as [|id new_ids IH]; intros [|k kinds] dp pp sp s s' H;
    cbn in H; try discriminate.
  - injection H as <-. rewrite !app_nil_r. repeat split.
  - destruct k.
    + destruct dp as [|p dp]; [discriminate|].
      destruct (sub_Add id p (dir_sub s)) as [sub|e]; [|discriminate].
      apply IH in H as (Hlen & -> & -> & ->). cbn.
      rewrite <- !app_assoc. cbn. repeat split. lia.
    + destruct pp as [|p pp]; [discriminate|].
      destruct (sub_Add id p (point_sub s)) as [sub|e]; [|discriminate].
      apply IH in H as (Hlen & -> & -> & ->). cbn.
      rewrite <- !app_assoc. cbn. repeat split. lia.
    + destruct sp as [|p sp]; [discriminate|].
      destruct (sub_Add id p (spot_sub s)) as [sub|e]; [|discriminate].
      apply IH in H as (Hlen & -> & -> & ->). cbn.
      rewrite <- !app_assoc. cbn. repeat split. lia.
Qed.

Lemma aligned_default : aligned Light_default.
Proof. split; reflexivity. Qed.

Lemma BulkAdd_failure_unchanged (new_ids : list EntityID)
    (kinds : list LightType) (dp : DirLightsInitParams)
    (pp : PointLightsInitParams) (sp : SpotLightsInitParams)
    (s s' : Light) (e : Error) :
  BulkAdd new_ids kinds dp pp sp s = (Err e, s') → s' = s.
Proof.
  unfold BulkAdd. destruct (CheckBatch s new_ids kinds dp pp sp).
  - destruct (forward _ _ _ _ _ s); intros [= <-]; congruence.
  - intros [= <-]; congruence.
Qed.

Lemma aligned_BulkAdd (new_ids : list EntityID) (kinds : list LightType)
    (dp : DirLightsInitParams) (pp : PointLightsInitParams)
    (sp : SpotLightsInitParams) (s : Light) :
  aligned s → aligned (BulkAdd new_ids kinds dp pp sp s).2.
Proof.
  intros [H1 H2]. unfold BulkAdd.
  destruct (CheckBatch s new_ids kinds dp pp sp); [|split; assumption].
  destruct (forward _ _ _ _ _ s) as [s'|e] eqn:E; [|split; assumption].
  apply forward_arrays in E as (Hlen & Hi & Ht & Ha). cbn.
  unfold aligned. rewrite Hi, Ht, Ha, !length_app, length_replicate. lia.
Qed.

Lemma aligned_SetActive (id : EntityID) (b : bool) (s : Light) :
  aligned s → aligned (SetActive id b s).2.
Proof.
  intros [H1 H2]. unfold SetActive.
  destruct (IndexOf id (ids s)); [|split; assumption].
  split; cbn; [exact H1|]. rewrite length_insert. exact H2.
Qed.

Lemma aligned_pop_entry (i : nat) (s : Light) :
  length (ids s) = length (types s) →
  length (types s) = length (isActive s) →
  aligned (pop_entry i s).
Proof.
  intros H1 H2. split; cbn; rewrite !length_swap_pop; lia.
Qed.

Lemma aligned_Remove (id : EntityID) (s : Light) :
  aligned s → aligned (Remove id s).2.
Proof.
  intros [H1 H2]. unfold Remove.
  destruct (IndexOf id (ids s)) as [i|]; [|split; assumption].
  destruct (types s !! i) as [[| |]|]; [| | |split; assumption].
  - destruct (sub_Remove id (dir_sub s)); [|split; assumption].
    apply aligned_pop_entry; assumption.
  - destruct (sub_Remove id (point_sub s)); [|split; assumption].
    apply aligned_pop_entry; assumption.
  - destruct (sub_Remove id (spot_sub s)); [|split; assumption].
    apply aligned_pop_entry; assumption.
Qed.

Lemma reachable_aligned (s : Light) : reachable s → aligned s.
Proof.
  induction 1 as [|c s _ IH]; [apply aligned_default|].
  destruct c; cbn.
  - apply aligned_BulkAdd, IH.
  - apply aligned_SetActive, IH.
  - apply aligned_Remove, IH.
Qed.

Lemma CheckBatch_true (s : Light) (new_ids : list EntityID)
    (kinds : list LightType) (dp : DirLightsInitParams)
    (pp : PointLightsInitParams) (sp : SpotLightsInitParams) :
  CheckBatch s new_ids kinds dp pp sp = true →
  length kinds = length new_ids
  ∧ NoDup new_ids
  ∧ ∀ id, id ∈ new_ids → id ∉ ids s.
Proof.
  unfold CheckBatch.
  rewrite !andb_true_iff, !bool_decide_eq_true, forallb_forall.
  intros (((_ & Hlen) & Hnd) & Hfresh). split; [exact Hlen|].
  split; [exact Hnd|]. intros id Hin.
  apply IndexOf_None. apply list_elem_of_In, Hfresh in Hin.
  apply bool_decide_eq_true in Hin. exact Hin.
Qed.

(** C3. The three top-level parallel sequences of the light store (ids,
    kind tags, active flags) have equal length in every store built from the
    empty component by BulkAdd, SetActive and Remove calls, whether these
    succeed or fail.  In particular a successful BulkAdd leaves the three
    lengths equal, and every id added by that call is retrievable via
    GetKind, which returns the kind given for it in the batch. *)
Theorem top_level_arrays_aligned (s : Light) :
  reachable s →
  aligned s
  ∧ ∀ new_ids kinds dp pp sp s',
      BulkAdd new_ids kinds dp pp sp s = (Ok tt, s') →
      length (ids s') = length (types s')
      ∧ length (types s') = length (isActive s')
      ∧ ∀ j id, new_ids !! j = Some id →
                ∃ k, kinds !! j = Some k ∧ GetKind id s' = Ok k.
Proof.
  intros Hreach. pose proof (reachable_aligned s Hreach) as Hs.
  split; [exact Hs|].
  intros new_ids kinds dp pp sp s' Hadd.
  pose proof (aligned_BulkAdd new_ids kinds dp pp sp s Hs) as [Ha1 Ha2].
  rewrite Hadd in Ha1, Ha2. cbn in Ha1, Ha2.
  split; [exact Ha1|]. split; [exact Ha2|].
  intros j id Hj. unfold BulkAdd in Hadd.
  destruct (CheckBatch s new_ids kinds dp pp sp) eqn:Hc; [|discriminate].
  destruct (forward _ _ _ _ _ s) as [s1|e] eqn:E; [|discriminate].
  injection Hadd as ->.
  apply CheckBatch_true in Hc as (Hlen & Hnd & Hfresh).
  apply forward_arrays in E as (_ & Hi & Ht & _).
  destruct (lookup_lt_is_Some_2 kinds j) as [k Hk].
  { rewrite Hlen. eapply lookup_lt_Some, Hj. }
  exists k. split; [exact Hk|].
  unfold GetKind. rewrite Hi.
  rewrite (IndexOf_app_fresh id (ids s) new_ids j); try assumption.
  - destruct Hs as [Hs1 _].
    rewrite Ht, Hs1, lookup_app_r by lia.
    replace (length (types s) + j - length (types s)) with j by lia.
    rewrite Hk. reflexivity.
  - apply Hfresh. eapply list_elem_of_lookup_2, Hj.
Qed.

(** Entities 10 and 11 are added to the empty store as a Point and a Spot
    light; the three arrays then have length two and entity 11 is found to
    be a Spot light. *)
Lemma top_level_arrays_aligned_witness :
  reachable Light_default
  ∧ BulkAdd [10%N; 11%N] [POINT; SPOT] example_dir_params
      example_point_params example_spot_params Light_default
    = (Ok tt, example_store)
  ∧ length (ids example_store) = length (types example_store)
  ∧ length (types example_store) = length (isActive example_store)
  ∧ ∃ k, [POINT; SPOT] !! 1 = Some k ∧ GetKind 11%N example_store = Ok k.
Proof.
  split; [apply reachable_default|].
  split; [reflexivity|].
  destruct (top_level_arrays_aligned Light_default reachable_default)
    as [_ H].
  destruct (H [10%N; 11%N] [POINT; SPOT] example_dir_params
              example_point_params example_spot_params example_store
              eq_refl) as (H1 & H2 & H3).
  split; [exact H1|]. split; [exact H2|].
  apply (H3 1 11%N). reflexivity.
Defined.

End LightStore.

(* ===================================================================== *)
(** * Part III: further properties of the code                            *)
(* ===================================================================== *)

(** ** The attenuation floor *)

Section AttenuationFloor.

Import ECS.

Local Open Scope Z_scope.

(** The comparison of a positive finite number with [0.01f], the literal
    being kept away from the recursive argument of the mantissa
    comparison. *)
Lemma SFcompare_finite_lit (m : positive) (e : Z) :
  SFcompare (S754_finite false m e) F32.lit_0_01
  = Some match e ?= -30 with
         | Lt => Lt
         | Gt => Gt
         | Eq => CompOpp (10737418 ?= m)%positive
         end.
Proof.
  unfold F32.lit_0_01, SFcompare.
  rewrite Pos.compare_cont_spec. unfold Pos.switch_Eq.
  rewrite (Pos.compare_antisym 10737418 m).
  generalize (10737418 ?= m)%positive; intros c.
  generalize (e ?= -30); intros c'.
  destruct c, c'; reflexivity.
Qed.

Lemma SFcompare_lit_finite (m : positive) (e : Z) :
  SFcompare F32.lit_0_01 (S754_finite false m e)
  = Some match e ?= -30 with
         | Lt => Gt
         | Gt => Lt
         | Eq => (10737418 ?= m)%positive
         end.
Proof.
  unfold F32.lit_0_01, SFcompare.
  rewrite Pos.compare_cont_spec. unfold Pos.switch_Eq.
  rewrite (Z.compare_antisym e (-30)).
  generalize (10737418 ?= m)%positive; intros c.
  generalize (e ?= -30); intros c'.
  destruct c, c'; reflexivity.
Qed.

(** Comparing with [0.01f] in either direction gives opposite answers. *)
Lemma SFcompare_lit_antisym (a : float) :
  SFcompare F32.lit_0_01 a
  = match SFcompare a F32.lit_0_01 with
    | Some c => Some (CompOpp c)
    | None => None
    end.
Proof.
  destruct a as [s | s | | s m e].
  - reflexivity.
  - destruct s; reflexivity.
  - reflexivity.
  - destruct s; [reflexivity|].
    rewrite SFcompare_finite_lit, SFcompare_lit_finite.
    generalize (10737418 ?= m)%positive; intros c.
    generalize (e ?= -30); intros c'.
    destruct c, c'; reflexivity.
Qed.

(** Only [0.01f] itself compares equal to [0.01f]. *)
Lemma SFcompare_Eq_lit (a : float) :
  SFcompare a F32.lit_0_01 = Some Eq → a = F32.lit_0_01.
Proof.
  destruct a as [s | s | | s m e].
  - discriminate.
  - destruct s; discriminate.
  - discriminate.
  - destruct s; [discriminate|].
    rewrite SFcompare_finite_lit.
    destruct (Z.compare_spec e (-30)) as [-> | _ | _]; try discriminate.
    destruct (Pos.compare_spec 10737418 m) as [<- | _ | _];
      try discriminate.
    reflexivity.
Qed.

(** Every number that is not NaN compares equal to itself. *)
Lemma SFcompare_refl (a : float) : a ≠ S754_nan → SFcompare a a = Some Eq.
Proof.
  destruct a as [s | s | | s m e]; intros Hnan.
  - reflexivity.
  - destruct s; reflexivity.
  - contradiction.
  - unfold SFcompare. rewrite Z.compare_refl, Pos.compare_cont_refl.
    destruct s; reflexivity.
Qed.

Lemma ge_lit_lit : F32.ge F32.lit_0_01 F32.lit_0_01 = true.
Proof. vm_compute. reflexivity. Qed.

Lemma gt_lit_lit : F32.gt F32.lit_0_01 F32.lit_0_01 = false.
Proof. vm_compute. reflexivity. Qed.

Lemma gt_ge (a b : float) : F32.gt a b = true → F32.ge a b = true.
Proof.
  unfold F32.gt, F32.ge. generalize (SFcompare a b); intros c.
  destruct c as [[| |]|]; (discriminate || reflexivity).
Qed.

(** The clamp expression lands at or above the floor. *)
Lemma clamp_component_floor (a : float) :
  F32.ge (clamp_component a) F32.lit_0_01 = true.
Proof.
  unfold clamp_component.
  destruct (F32.gt a F32.lit_0_01) eqn:Hgt.
  - apply gt_ge, Hgt.
  - exact ge_lit_lit.
Qed.

(** The clamp expression keeps exactly the numbers at or above the floor. *)
Lemma clamp_component_fixed (a : float) :
  clamp_component a = a ↔ F32.ge a F32.lit_0_01 = true.
Proof.
  split.
  - intros H. rewrite <- H. apply clamp_component_floor.
  - unfold clamp_component, F32.ge, F32.gt.
    destruct (SFcompare a F32.lit_0_01) as [[| |]|] eqn:Hc;
      try discriminate; intros _.
    + symmetry. apply SFcompare_Eq_lit, Hc.
    + reflexivity.
Qed.

(** The clamp expression never lowers a number. *)
Lemma clamp_component_raises (a : float) :
  a ≠ S754_nan → F32.ge (clamp_component a) a = true.
Proof.
  intros Hnan. unfold clamp_component, F32.gt.
  destruct (SFcompare a F32.lit_0_01) as [[| |]|] eqn:Hc.
  - unfold F32.ge. rewrite SFcompare_lit_antisym, Hc. reflexivity.
  - unfold F32.ge. rewrite SFcompare_lit_antisym, Hc. reflexivity.
  - unfold F32.ge. rewrite (SFcompare_refl a Hnan). reflexivity.
  - destruct a; try discriminate Hc. contradiction.
Qed.

Lemma pl_att_clamped (ambient diffuse specular : XMFLOAT4) (range : float)
    (attenuation : XMFLOAT3) (i : axis) :
  component i (pl_att (PointLight_ctor ambient diffuse specular range
                         attenuation))
  = clamp_component (component i attenuation).
Proof. destruct i; reflexivity. Qed.

Lemma sl_att_clamped (ambient diffuse specular : XMFLOAT4)
    (range spot : float) (attenuation : XMFLOAT3) (i : axis) :
  component i (sl_att (SpotLight_ctor ambient diffuse specular range spot
                         attenuation))
  = clamp_component (component i attenuation).
Proof. destruct i; reflexivity. Qed.

(** X1. Whatever attenuation a Point or Spot light is constructed with,
    NaN, infinities, zeros and negative numbers included, every stored
    attenuation component tests greater than or equal to [0.01f]; in
    particular it is never NaN. *)
Theorem constructed_attenuation_at_floor
    (ambient diffuse specular : XMFLOAT4) (range spot : float)
    (attenuation : XMFLOAT3) (i : axis) :
  let p := component i (pl_att (PointLight_ctor ambient diffuse specular
                                  range attenuation)) in
  let s := component i (sl_att (SpotLight_ctor ambient diffuse specular
                                  range spot attenuation)) in
  F32.ge p F32.lit_0_01 = true ∧ F32.ge s F32.lit_0_01 = true
  ∧ p ≠ F32.NAN ∧ s ≠ F32.NAN.
Proof.
  cbn zeta. rewrite pl_att_clamped, sl_att_clamped.
  pose proof (clamp_component_floor (component i attenuation)) as Hfloor.
  repeat split; try exact Hfloor; intros Hnan; rewrite Hnan in Hfloor;
    discriminate Hfloor.
Qed.

(** X2. The clamp of the constructors only ever raises a component: for
    every attenuation component that is not NaN, the stored component
    tests greater than or equal to the one given. *)
Theorem clamp_only_raises
    (ambient diffuse specular : XMFLOAT4) (range spot : float)
    (attenuation : XMFLOAT3) (i : axis) :
  component i attenuation ≠ F32.NAN →
  F32.ge (component i (pl_att (PointLight_ctor ambient diffuse specular
                                 range attenuation)))
    (component i attenuation) = true
  ∧ F32.ge (component i (sl_att (SpotLight_ctor ambient diffuse specular
                                   range spot attenuation)))
      (component i attenuation) = true.
Proof.
  intros Hnan. rewrite pl_att_clamped, sl_att_clamped.
  split; apply clamp_component_raises, Hnan.
Qed.

(** The component -1.0 of the attenuation (0.0, 0.02, -1.0) is raised. *)
Lemma clamp_only_raises_witness :
  component axis_z example_attenuation ≠ F32.NAN
  ∧ F32.ge (component axis_z
              (pl_att (PointLight_ctor white white white F32.lit_1
                         example_attenuation)))
      F32.lit_neg1 = true.
Proof.
  split; [discriminate|].
  apply (clamp_only_raises white white white F32.lit_1 F32.lit_1
           example_attenuation axis_z).
  discriminate.
Defined.

Lemma clamp_attenuation_fixed (v : XMFLOAT3) :
  clamp_attenuation v = v ↔ ∀ i, F32.ge (component i v) F32.lit_0_01 = true.
Proof.
  split.
  - intros H i. apply clamp_component_fixed.
    destruct i; [apply (f_equal x3) in H | apply (f_equal y3) in H
                | apply (f_equal z3) in H]; exact H.
  - intros H. destruct v as [x y z]. unfold clamp_attenuation. cbn.
    rewrite (proj2 (clamp_component_fixed x) (H axis_x)).
    rewrite (proj2 (clamp_component_fixed y) (H axis_y)).
    rewrite (proj2 (clamp_component_fixed z) (H axis_z)).
    reflexivity.
Qed.

Lemma PointLight_ctor_members (p : PointLight) :
  PointLight_ctor (pl_ambient p) (pl_diffuse p) (pl_specular p) (pl_range p)
    (pl_att p)
  = {| pl_ambient := pl_ambient p; pl_diffuse := pl_diffuse p;
       pl_specular := pl_specular p;
       pl_att := clamp_attenuation (pl_att p);
       pl_range := pl_range p |}.
Proof. reflexivity. Qed.

Lemma SpotLight_ctor_members (s : SpotLight) :
  SpotLight_ctor (sl_ambient s) (sl_diffuse s) (sl_specular s) (sl_range s)
    (sl_spot s) (sl_att s)
  = {| sl_ambient := sl_ambient s; sl_diffuse := sl_diffuse s;
       sl_specular := sl_specular s;
       sl_att := clamp_attenuation (sl_att s);
       sl_range := sl_range s; sl_spot := sl_spot s |}.
Proof. reflexivity. Qed.

(** X3. Passing the members of a light back through its constructor gives
    the same light exactly when every attenuation component of the light
    tests greater than or equal to [0.01f]; this holds for Point and for
    Spot lights.  A light whose attenuation is below the floor or NaN, such
    as a default-constructed one, is not reproduced. *)
Theorem constructor_round_trip :
  (∀ p : PointLight,
     PointLight_ctor (pl_ambient p) (pl_diffuse p) (pl_specular p)
       (pl_range p) (pl_att p) = p
     ↔ ∀ i, F32.ge (component i (pl_att p)) F32.lit_0_01 = true)
  ∧ (∀ s : SpotLight,
       SpotLight_ctor (sl_ambient s) (sl_diffuse s) (sl_specular s)
         (sl_range s) (sl_spot s) (sl_att s) = s
       ↔ ∀ i, F32.ge (component i (sl_att s)) F32.lit_0_01 = true)
  ∧ PointLight_ctor (pl_ambient PointLight_default)
      (pl_diffuse PointLight_default) (pl_specular PointLight_default)
      (pl_range PointLight_default) (pl_att PointLight_default)
    ≠ PointLight_default.
Proof.
  split; [|split].
  - intros p. rewrite PointLight_ctor_members, <- clamp_attenuation_fixed.
    split.
    + intros H. apply (f_equal pl_att) in H. exact H.
    + intros H. rewrite H. destruct p; reflexivity.
  - intros s. rewrite SpotLight_ctor_members, <- clamp_attenuation_fixed.
    split.
    + intros H. apply (f_equal sl_att) in H. exact H.
    + intros H. rewrite H. destruct s; reflexivity.
  - intros H. apply (f_equal (λ p, x3 (pl_att p))) in H.
    vm_compute in H. discriminate H.
Qed.

(** X4. Construction is idempotent: a light built by the five-argument
    PointLight constructor (six-argument SpotLight constructor) is
    reproduced unchanged when its members are passed through the
    constructor again, so a second clamp changes nothing. *)
Theorem construction_idempotent
    (ambient diffuse specular : XMFLOAT4) (range spot : float)
    (attenuation : XMFLOAT3) :
  let p := PointLight_ctor ambient diffuse specular range attenuation in
  let s := SpotLight_ctor ambient diffuse specular range spot attenuation in
  PointLight_ctor (pl_ambient p) (pl_diffuse p) (pl_specular p) (pl_range p)
    (pl_att p) = p
  ∧ SpotLight_ctor (sl_ambient s) (sl_diffuse s) (sl_specular s) (sl_range s)
      (sl_spot s) (sl_att s) = s.
Proof.
  intros p s.
  assert (Hp : clamp_attenuation (pl_att p) = pl_att p).
  { apply clamp_attenuation_fixed. intros i. subst p.
    rewrite pl_att_clamped. apply clamp_component_floor. }
  assert (Hs : clamp_attenuation (sl_att s) = sl_att s).
  { apply clamp_attenuation_fixed. intros i. subst s.
    rewrite sl_att_clamped. apply clamp_component_floor. }
  rewrite PointLight_ctor_members, SpotLight_ctor_members, Hp, Hs.
  split; reflexivity.
Qed.

End AttenuationFloor.

(** ** Copying light records *)

Section LightCopies.

Import ECS.

(** Assignment between two live objects, as an update of the memory. *)
Lemma PointLight_assign_insert (m : gmap addr PointLight) (this rhs : addr)
    (t r : PointLight) :
  m !! this = Some t → m !! rhs = Some r →
  PointLight_assign this rhs m = Some (<[this := r]> m).
Proof.
  intros Ht Hr. unfold PointLight_assign.
  destruct (decide (this = rhs)) as [-> | Hne].
  - rewrite Hr. f_equal. symmetry. apply insert_id, Hr.
  - rewrite Ht, Hr. destruct r; reflexivity.
Qed.

Lemma DirLight_assign_insert (m : gmap addr DirLight) (this rhs : addr)
    (t r : DirLight) :
  m !! this = Some t → m !! rhs = Some r →
  DirLight_assign this rhs m = Some (<[this := r]> m).
Proof.
  intros Ht Hr. unfold DirLight_assign.
  destruct (decide (this = rhs)) as [-> | Hne].
  - rewrite Hr. f_equal. symmetry. apply insert_id, Hr.
  - rewrite Ht, Hr. destruct r; reflexivity.
Qed.

(** X5. Assignments of PointLights chain, whatever the aliasing between
    the three objects: after [b = a; c = b] the objects at [a], [b] and [c]
    all hold the original value of [a], and every other object is
    untouched. *)
Theorem PointLight_assign_chain (m : gmap addr PointLight) (a b c : addr)
    (pa pb pc : PointLight) :
  m !! a = Some pa → m !! b = Some pb → m !! c = Some pc →
  ∃ m1 m2,
    PointLight_assign b a m = Some m1
    ∧ PointLight_assign c b m1 = Some m2
    ∧ m2 !! a = Some pa ∧ m2 !! b = Some pa ∧ m2 !! c = Some pa
    ∧ ∀ x, x ≠ b → x ≠ c → m2 !! x = m !! x.
Proof.
  intros Ha Hb Hc.
  exists (<[b := pa]> m), (<[c := pa]> (<[b := pa]> m)).
  assert (Hb1 : <[b := pa]> m !! b = Some pa) by apply lookup_insert_eq.
  assert (Hc1 : ∃ t, <[b := pa]> m !! c = Some t).
  { destruct (decide (b = c)) as [-> | Hne]; [eauto|].
    rewrite lookup_insert_ne by exact Hne. eauto. }
  destruct Hc1 as [t Hc1].
  split; [apply (PointLight_assign_insert m b a pb pa Hb Ha)|].
  split; [apply (PointLight_assign_insert _ c b t pa Hc1 Hb1)|].
  split; [|split; [|split]].
  - destruct (decide (c = a)) as [-> | Hca];
      [apply lookup_insert_eq | rewrite lookup_insert_ne by exact Hca].
    destruct (decide (b = a)) as [-> | Hba];
      [apply lookup_insert_eq | rewrite lookup_insert_ne by exact Hba].
    exact Ha.
  - destruct (decide (c = b)) as [-> | Hcb];
      [apply lookup_insert_eq | rewrite lookup_insert_ne by exact Hcb].
    exact Hb1.
  - apply lookup_insert_eq.
  - intros x Hxb Hxc. rewrite !lookup_insert_ne by congruence. reflexivity.
Qed.

(** The memory of the examples with a third light at address 3: the
    default-constructed light at address 1 is assigned to address 2 and from
    there to address 3. *)
Lemma PointLight_assign_chain_witness :
  ∃ m1 m2,
    PointLight_assign 2%positive 1%positive
      (<[3%positive := PointLight_ctor white white white F32.lit_1
                         example_attenuation]> example_mem) = Some m1
    ∧ PointLight_assign 3%positive 2%positive m1 = Some m2
    ∧ m2 !! 1%positive = Some PointLight_default
    ∧ m2 !! 2%positive = Some PointLight_default
    ∧ m2 !! 3%positive = Some PointLight_default
    ∧ ∀ x, x ≠ 2%positive → x ≠ 3%positive →
           m2 !! x
           = <[3%positive := PointLight_ctor white white white F32.lit_1
                               example_attenuation]> example_mem !! x.
Proof.
  apply (PointLight_assign_chain
           (<[3%positive := PointLight_ctor white white white F32.lit_1
                               example_attenuation]> example_mem)
           1%positive 2%positive 3%positive PointLight_default
           (PointLight_ctor white white white F32.lit_1 unit_attenuation)
           (PointLight_ctor white white white F32.lit_1
              example_attenuation));
    reflexivity.
Defined.

(** X6. Assigning a PointLight twice is the same as assigning it once:
    when [b = a] succeeds, repeating it succeeds and leaves the memory as
    the first assignment left it. *)
Theorem PointLight_assign_idempotent (m m1 : gmap addr PointLight)
    (a b : addr) :
  PointLight_assign b a m = Some m1 →
  PointLight_assign b a m1 = Some m1.
Proof.
  unfold PointLight_assign at 1.
  destruct (decide (b = a)) as [-> | Hne].
  - destruct (m !! a) as [pa|] eqn:Ha; [|discriminate].
    intros [= <-]. unfold PointLight_assign.
    destruct (decide (a = a)); [|contradiction]. rewrite Ha. reflexivity.
  - destruct (m !! b) as [pb|] eqn:Hb; [|discriminate].
    destruct (m !! a) as [pa|] eqn:Ha; [|discriminate].
    intros [= <-].
    erewrite PointLight_assign_insert.
    + f_equal. destruct pa; cbn. apply insert_insert_eq.
    + apply lookup_insert_eq.
    + rewrite lookup_insert_ne by exact Hne. exact Ha.
Qed.

Lemma PointLight_assign_idempotent_witness :
  PointLight_assign 2%positive 1%positive example_mem
  = Some (<[2%positive := PointLight_default]> example_mem)
  ∧ PointLight_assign 2%positive 1%positive
      (<[2%positive := PointLight_default]> example_mem)
    = Some (<[2%positive := PointLight_default]> example_mem).
Proof.
  assert (H : PointLight_assign 2%positive 1%positive example_mem
              = Some (<[2%positive := PointLight_default]> example_mem))
    by reflexivity.
  split; [exact H|].
  apply (PointLight_assign_idempotent example_mem _ 1%positive 2%positive H).
Defined.

(** X7. The PointLight copy constructor, which assigns to an object whose
    members are not yet initialised, does not depend on their indeterminate
    content: at a free address it always builds a copy equal to the source
    and leaves every other object, the source included, as it was. *)
Theorem PointLight_copy_ctor_ignores_junk (m : gmap addr PointLight)
    (this rhs : addr) (r : PointLight) :
  m !! this = None → m !! rhs = Some r →
  ∀ junk : PointLight,
    PointLight_copy_ctor this rhs junk m = Some (<[this := r]> m).
Proof.
  intros Hfree Hr junk. unfold PointLight_copy_ctor. rewrite Hfree.
  assert (Hne : this ≠ rhs) by (intros ->; congruence).
  erewrite PointLight_assign_insert.
  - f_equal. apply insert_insert_eq.
  - apply lookup_insert_eq.
  - rewrite lookup_insert_ne by exact Hne. exact Hr.
Qed.

Lemma PointLight_copy_ctor_ignores_junk_witness :
  example_mem !! 3%positive = None
  ∧ PointLight_copy_ctor 3%positive 1%positive
      (PointLight_ctor white white white F32.lit_1 unit_attenuation)
      example_mem
    = Some (<[3%positive := PointLight_default]> example_mem).
Proof.
  split; [reflexivity|].
  apply (PointLight_copy_ctor_ignores_junk example_mem 3%positive 1%positive
           PointLight_default); reflexivity.
Defined.

(** X8. Copying a DirLight reproduces its three colours verbatim.  Copy
    assignment between two live objects, aliased or not, succeeds and
    changes the target only, which then equals the source; copy
    construction at a free address builds a copy equal to the source
    whatever the indeterminate content of the new object was. *)
Theorem DirLight_copies_verbatim (m : gmap addr DirLight)
    (this rhs : addr) (r : DirLight) :
  m !! rhs = Some r →
  (∀ t, m !! this = Some t →
        DirLight_assign this rhs m = Some (<[this := r]> m))
  ∧ (m !! this = None →
     ∀ junk, DirLight_copy_ctor this rhs junk m = Some (<[this := r]> m))
  ∧ <[this := r]> m !! this = Some r
  ∧ <[this := r]> m !! rhs = Some r
  ∧ ∀ x, x ≠ this → <[this := r]> m !! x = m !! x.
Proof.
  intros Hr. split; [|split; [|split; [|split]]].
  - intros t Ht. apply (DirLight_assign_insert m this rhs t r Ht Hr).
  - intros Hfree junk. unfold DirLight_copy_ctor. rewrite Hfree.
    assert (Hne : this ≠ rhs) by (intros ->; congruence).
    erewrite DirLight_assign_insert.
    + f_equal. apply insert_insert_eq.
    + apply lookup_insert_eq.
    + rewrite lookup_insert_ne by exact Hne. exact Hr.
  - apply lookup_insert_eq.
  - destruct (decide (this = rhs)) as [-> | Hne];
      [apply lookup_insert_eq | rewrite lookup_insert_ne by exact Hne].
    exact Hr.
  - intros x Hx. rewrite lookup_insert_ne by congruence. reflexivity.
Qed.

(** A directional light at address 1 is copy-constructed at the free
    address 2. *)
Lemma DirLight_copies_verbatim_witness :
  ({[1%positive := DirLight_ctor white white white]}
     : gmap addr DirLight) !! 1%positive
  = Some (DirLight_ctor white white white)
  ∧ DirLight_copy_ctor 2%positive 1%positive
      (DirLight_ctor white white white)
      {[1%positive := DirLight_ctor white white white]}
    = Some (<[2%positive := DirLight_ctor white white white]>
              {[1%positive := DirLight_ctor white white white]}).
Proof.
  split; [reflexivity|].
  apply (DirLight_copies_verbatim
           {[1%positive := DirLight_ctor white white white]}
           2%positive 1%positive (DirLight_ctor white white white));
    reflexivity.
Defined.

(** X9. The attenuation floor survives copying: when a PointLight built by
    the five-argument constructor is assigned to another live object, the
    target's attenuation components all test greater than or equal to
    [0.01f] afterwards, whatever the target held before. *)
Theorem floor_survives_copy (m : gmap addr PointLight) (this rhs : addr)
    (t : PointLight) (ambient diffuse specular : XMFLOAT4) (range : float)
    (attenuation : XMFLOAT3) :
  m !! this = Some t →
  m !! rhs
  = Some (PointLight_ctor ambient diffuse specular range attenuation) →
  ∃ m' p,
    PointLight_assign this rhs m = Some m'
    ∧ m' !! this = Some p
    ∧ ∀ i, F32.ge (component i (pl_att p)) F32.lit_0_01 = true.
Proof.
  intros Ht Hr.
  exists (<[this := PointLight_ctor ambient diffuse specular range
                      attenuation]> m),
    (PointLight_ctor ambient diffuse specular range attenuation).
  split; [apply (PointLight_assign_insert m this rhs t _ Ht Hr)|].
  split; [apply lookup_insert_eq|].
  intros i. rewrite pl_att_clamped. apply clamp_component_floor.
Qed.

(** The constructed light at address 2 of the example memory overwrites the
    default-constructed one, whose attenuation is NaN, at address 1. *)
Lemma floor_survives_copy_witness :
  example_mem !! 1%positive = Some PointLight_default
  ∧ ∃ m' p,
      PointLight_assign 1%positive 2%positive example_mem = Some m'
      ∧ m' !! 1%positive = Some p
      ∧ ∀ i, F32.ge (component i (pl_att p)) F32.lit_0_01 = true.
Proof.
  split; [reflexivity|].
  apply (floor_survives_copy example_mem 1%positive 2%positive
           PointLight_default white white white F32.lit_1 unit_attenuation);
    reflexivity.
Defined.

End LightCopies.

(** ** Sizing and filling a constant buffer *)

Section ConstantBufferUse.

Local Open Scope Z_scope.

(** [size_t] is at least as wide as [UINT]. *)
Variable size_t_bits : Z.
Hypothesis size_t_wide : Render.UINT_bits ≤ size_t_bits.

(** X10. For every payload size, also one for which the narrowing to [UINT]
    wraps, the ByteWidth that [Initialize] requests is a multiple of 16 and
    fits in 32 bits. *)
Theorem requested_ByteWidth_aligned (sizeofT : Z) :
  Render.requested_ByteWidth size_t_bits sizeofT mod 16 = 0
  ∧ 0 ≤ Render.requested_ByteWidth size_t_bits sizeofT < 4294967296.
Proof.
  split; [apply ByteWidth_multiple_of_16, size_t_wide|].
  rewrite (ByteWidth_mod size_t_bits size_t_wide).
  apply Z.mod_pos_bound. lia.
Qed.

(** X11. For a payload of less than 2^32 - 16 bytes the requested ByteWidth
    is the smallest multiple of 16 that is strictly greater than
    sizeof(T): between 1 and 16 bytes of padding follow the payload, and no
    smaller multiple of 16 exceeds the payload size. *)
Theorem requested_ByteWidth_least (sizeofT : Z) :
  0 < sizeofT < 4294967296 - 16 →
  1 ≤ Render.requested_ByteWidth size_t_bits sizeofT - sizeofT ≤ 16
  ∧ ∀ k, k mod 16 = 0 → sizeofT < k →
         Render.requested_ByteWidth size_t_bits sizeofT ≤ k.
Proof.
  intros Hsz.
  assert (H16 : 0 ≤ sizeofT mod 16 < 16) by (apply Z.mod_pos_bound; lia).
  pose proof (Z.div_mod sizeofT 16 ltac:(lia)) as Hdm.
  assert (Heq : Render.requested_ByteWidth size_t_bits sizeofT
                = 16 * (sizeofT / 16 + 1)).
  { rewrite (ByteWidth_mod size_t_bits size_t_wide), padded_size.
    apply Z.mod_small.
    assert (sizeofT / 16 < 268435455)
      by (apply Z.div_lt_upper_bound; lia).
    lia. }
  split; [lia|].
  intros k Hk Hlt. rewrite Heq.
  pose proof (Z.div_mod k 16 ltac:(lia)) as Hkdm. rewrite Hk in Hkdm.
  assert (sizeofT / 16 < k / 16) by lia.
  lia.
Qed.

(** X12. The bound 2^32 - 16 is exact: for a payload size between 1 and
    the largest [size_t] value, the requested ByteWidth is greater than
    sizeof(T), so that the payload fits the buffer, exactly when
    sizeof(T) < 2^32 - 16; for the sixteen sizes from 2^32 - 16 to 2^32 - 1
    the request is 0 bytes. *)
Theorem requested_ByteWidth_holds_payload_iff (sizeofT : Z) :
  0 < sizeofT < 2 ^ size_t_bits →
  (sizeofT < Render.requested_ByteWidth size_t_bits sizeofT
   ↔ sizeofT < 4294967296 - 16)
  ∧ (4294967296 - 16 ≤ sizeofT < 4294967296 →
     Render.requested_ByteWidth size_t_bits sizeofT = 0).
Proof.
  intros Hsz.
  assert (H16 : 0 ≤ sizeofT mod 16 < 16) by (apply Z.mod_pos_bound; lia).
  pose proof (Z.div_mod sizeofT 16 ltac:(lia)) as Hdm.
  pose proof (ByteWidth_mod size_t_bits size_t_wide sizeofT) as Hmod.
  rewrite padded_size in Hmod.
  assert (Htop : 4294967296 - 16 ≤ sizeofT < 4294967296 →
                 Render.requested_ByteWidth size_t_bits sizeofT = 0).
  { intros Hr. rewrite Hmod.
    assert (sizeofT / 16 = 268435455).
    { apply Z.le_antisymm.
      - assert (sizeofT / 16 < 268435456)
          by (apply Z.div_lt_upper_bound; lia). lia.
      - apply Z.div_le_lower_bound; lia. }
    replace (16 * (sizeofT / 16 + 1)) with (1 * 4294967296) by lia.
    apply Z.mod_mul. lia. }
  split; [|exact Htop]. split.
  - intros Hgt.
    destruct (Z.lt_ge_cases sizeofT (4294967296 - 16)) as [|Hge];
      [assumption|]. exfalso.
    destruct (Z.lt_ge_cases sizeofT 4294967296) as [Hlt|Hbig].
    + rewrite Htop in Hgt by lia. lia.
    + assert (Render.requested_ByteWidth size_t_bits sizeofT < 4294967296).
      { rewrite Hmod. apply Z.mod_pos_bound. lia. }
      lia.
  - intros Hlt. rewrite Hmod.
    assert (sizeofT / 16 < 268435455)
      by (apply Z.div_lt_upper_bound; lia).
    rewrite Z.mod_small by lia. lia.
Qed.

(** X13. When [Initialize] got a buffer from the device and the context
    maps it, a following [ApplyChanges] maps that very buffer for
    write-discard, copies exactly sizeof(T) bytes of [data], and unmaps it,
    logging nothing; for sizeof(T) < 2^32 - 16 the copy is shorter than the
    ByteWidth that [Initialize] requested from the device for it. *)
Theorem ApplyChanges_after_Initialize {T : Type} (sizeofT : Z)
    (pDevice : Render.ID3D11Device) (pContext : Render.ID3D11DeviceContext)
    (old : option Render.ID3D11Buffer) (data : T)
    (hr : Render.HRESULT) (b : Render.ID3D11Buffer) :
  0 < sizeofT < 4294967296 - 16 →
  pDevice (Render.Initialize_desc size_t_bits sizeofT) = (hr, Some b) →
  Render.FAILED (pContext b) = false →
  Render.ApplyChanges sizeofT pContext data
    (Render.Initialize size_t_bits sizeofT pDevice old).1.2
  = [Render.EvMap b Render.D3D11_MAP_WRITE_DISCARD;
     Render.EvCopyMemory data sizeofT;
     Render.EvUnmap b]
  ∧ sizeofT
    < Render.ByteWidth (Render.Initialize_desc size_t_bits sizeofT).
Proof.
  intros Hsz Hdev Hmap. split.
  - unfold Render.Initialize. cbn [fst snd]. rewrite Hdev. cbn [fst snd].
    unfold Render.ApplyChanges. rewrite Hmap. reflexivity.
  - fold (Render.requested_ByteWidth size_t_bits sizeofT).
    rewrite (ByteWidth_mod size_t_bits size_t_wide), padded_size.
    assert (H16 : 0 ≤ sizeofT mod 16 < 16) by (apply Z.mod_pos_bound; lia).
    pose proof (Z.div_mod sizeofT 16 ltac:(lia)) as Hdm.
    assert (sizeofT / 16 < 268435455)
      by (apply Z.div_lt_upper_bound; lia).
    rewrite Z.mod_small by lia. lia.
Qed.

(** X14. Without a buffer nothing is mapped or copied: when the device
    fails and hands back no buffer, [Initialize] logs the failure, returns
    the device's result code and leaves [pBuffer_] null, whatever buffer was
    held before; [ApplyChanges] on a null [pBuffer_] only logs an error. *)
Theorem ApplyChanges_without_buffer {T : Type} (sizeofT : Z)
    (pDevice : Render.ID3D11Device) (pContext : Render.ID3D11DeviceContext)
    (old : option Render.ID3D11Buffer) (data : T) (hr : Render.HRESULT) :
  pDevice (Render.Initialize_desc size_t_bits sizeofT) = (hr, None) →
  Render.FAILED hr = true →
  Render.Initialize size_t_bits sizeofT pDevice old
  = (hr, None, ["can't create a constant buffer"])
  ∧ Render.ApplyChanges sizeofT pContext data
      (Render.Initialize size_t_bits sizeofT pDevice old).1.2
    = [Render.EvLogErr "ptr to buffer == nullptr"].
Proof.
  intros Hdev Hfail. unfold Render.Initialize. rewrite Hdev. cbn [fst snd].
  rewrite Hfail. split; reflexivity.
Qed.

End ConstantBufferUse.

Section ApplyChangesTrace.

Context {T : Type}.

Local Ltac list_members :=
  repeat match goal with
         | H : _ ∈ [] |- _ => apply elem_of_nil in H; contradiction
         | H : _ ∈ _ :: _ |- _ => apply elem_of_cons in H as [H | H]
         end.

(** X15. [ApplyChanges] touches the buffer only under a successful [Map]:
    whatever the context answers, bytes are copied and [Unmap] is called
    only when [pBuffer_] is not null and [Map] on it did not fail, [Map] is
    only ever called on [pBuffer_] with write-discard, what is copied is
    sizeof(T) bytes of [data], and an error is logged exactly when nothing
    is copied. *)
Theorem ApplyChanges_protocol (sizeofT : Z)
    (pContext : Render.ID3D11DeviceContext) (data : T)
    (pBuffer_ : option Render.ID3D11Buffer) :
  let tr := Render.ApplyChanges sizeofT pContext data pBuffer_ in
  (∀ d n, Render.EvCopyMemory d n ∈ tr →
          d = data ∧ n = sizeofT
          ∧ ∃ b, pBuffer_ = Some b ∧ Render.FAILED (pContext b) = false
                 ∧ Render.EvUnmap b ∈ tr)
  ∧ (∀ b, Render.EvUnmap b ∈ tr →
          pBuffer_ = Some b ∧ Render.FAILED (pContext b) = false
          ∧ Render.EvCopyMemory data sizeofT ∈ tr)
  ∧ (∀ b mt, Render.EvMap b mt ∈ tr →
             pBuffer_ = Some b ∧ mt = Render.D3D11_MAP_WRITE_DISCARD)
  ∧ ((∃ msg, Render.EvLogErr msg ∈ tr)
     ↔ Render.EvCopyMemory data sizeofT ∉ tr).
Proof.
  unfold Render.ApplyChanges.
  destruct pBuffer_ as [b|]; [destruct (Render.FAILED (pContext b)) eqn:Hf|];
    cbn zeta.
  - split; [|split; [|split]].
    + intros d n H. list_members; discriminate H.
    + intros b' H. list_members; discriminate H.
    + intros b' mt H. list_members; simplify_eq. split; reflexivity.
    + split.
      * intros _ H. list_members; discriminate H.
      * intros _. eexists. apply list_elem_of_further, list_elem_of_here.
  - split; [|split; [|split]].
    + intros d n H. list_members; simplify_eq.
      repeat split. exists b. repeat split; [exact Hf|].
      do 2 apply list_elem_of_further. apply list_elem_of_here.
    + intros b' H. list_members; simplify_eq. repeat split; [exact Hf|].
      apply list_elem_of_further, list_elem_of_here.
    + intros b' mt H. list_members; simplify_eq. split; reflexivity.
    + split.
      * intros [msg H]. list_members; discriminate H.
      * intros H. exfalso. apply H.
        apply list_elem_of_further, list_elem_of_here.
  - split; [|split; [|split]].
    + intros d n H. list_members; discriminate H.
    + intros b' H. list_members; discriminate H.
    + intros b' mt H. list_members; discriminate H.
    + split.
      * intros _ H. list_members; discriminate H.
      * intros _. eexists. apply list_elem_of_here.
Qed.

End ApplyChangesTrace.

(** A payload of 4294967290 bytes with a 64-bit [size_t]: the wrapped
    request is still a multiple of 16. *)
Lemma requested_ByteWidth_aligned_witness :
  (Render.UINT_bits ≤ 64)%Z
  ∧ (Render.requested_ByteWidth 64 4294967290 mod 16 = 0)%Z
  ∧ (0 ≤ Render.requested_ByteWidth 64 4294967290 < 4294967296)%Z.
Proof.
  split; [discriminate|].
  apply (requested_ByteWidth_aligned 64 ltac:(discriminate) 4294967290).
Defined.

(** A payload of 100 bytes with a 64-bit [size_t]: 112 bytes are requested,
    the smallest multiple of 16 above 100. *)
Lemma requested_ByteWidth_least_witness :
  (0 < 100 < 4294967296 - 16)%Z
  ∧ (1 ≤ Render.requested_ByteWidth 64 100 - 100 ≤ 16)%Z
  ∧ ∀ k : Z, (k mod 16 = 0 → 100 < k →
              Render.requested_ByteWidth 64 100 ≤ k)%Z.
Proof.
  split; [split; reflexivity|].
  apply (requested_ByteWidth_least 64 ltac:(discriminate) 100).
  split; reflexivity.
Defined.

(** A payload of 4294967290 bytes with a 64-bit [size_t]: the request wraps
    to 0 bytes. *)
Lemma requested_ByteWidth_holds_payload_iff_witness :
  (0 < 4294967290 < 2 ^ 64)%Z
  ∧ ¬ (4294967290 < Render.requested_ByteWidth 64 4294967290)%Z
  ∧ Render.requested_ByteWidth 64 4294967290 = 0%Z.
Proof.
  split; [split; reflexivity|].
  destruct (requested_ByteWidth_holds_payload_iff 64 ltac:(discriminate)
              4294967290) as [Hiff Htop]; [split; reflexivity|].
  split.
  - intros H. apply Hiff in H. discriminate H.
  - apply Htop. split; [discriminate | reflexivity].
Defined.

(** A device that creates buffer 7 and a context that maps it, for a
    payload of 64 bytes. *)
Lemma ApplyChanges_after_Initialize_witness :
  Render.ApplyChanges 64 (λ _, Render.S_OK) tt
    (Render.Initialize 64 64 (λ _, (Render.S_OK, Some 7%positive)) None).1.2
  = [Render.EvMap 7%positive Render.D3D11_MAP_WRITE_DISCARD;
     Render.EvCopyMemory tt 64%Z;
     Render.EvUnmap 7%positive]
  ∧ (64 < Render.ByteWidth (Render.Initialize_desc 64 64))%Z.
Proof.
  apply (ApplyChanges_after_Initialize 64 ltac:(discriminate) 64
           (λ _, (Render.S_OK, Some 7%positive)) (λ _, Render.S_OK)
           None tt Render.S_OK 7%positive);
    [split; reflexivity | reflexivity | reflexivity].
Defined.

(** A device that fails with E_FAIL (0x80004005 as a signed 32-bit value)
    while buffer 7 is held. *)
Lemma ApplyChanges_without_buffer_witness :
  Render.FAILED (-2147467259)%Z = true
  ∧ Render.Initialize 64 64 (λ _, (-2147467259, None)%Z) (Some 7%positive)
    = ((-2147467259)%Z, None, ["can't create a constant buffer"])
  ∧ Render.ApplyChanges 64 (λ _, Render.S_OK) tt
      (Render.Initialize 64 64 (λ _, (-2147467259, None)%Z)
         (Some 7%positive)).1.2
    = [Render.EvLogErr "ptr to buffer == nullptr"].
Proof.
  split; [reflexivity|].
  apply (ApplyChanges_without_buffer 64 64 (λ _, (-2147467259, None)%Z)
           (λ _, Render.S_OK) (Some 7%positive) tt (-2147467259)%Z);
    reflexivity.
Defined.
